(** * Image-classification server: decoder, tensor preprocessor, top-K selector

  A shallow embedding of [src/Detection algorithm/main.go] and the
  properties its specification states about [readImage],
  [preprocessImage] and [getTopK]. *)

From Stdlib Require Import ZArith List String Lia SpecFloat.
From stdpp Require Import base list sorting.
From stdpp Require gmap strings.
Local Open Scope Z_scope.

(** ** Go runtime notions shared by the three components *)
Module Go.

(** How a call ends: it returns, or a run-time panic unwinds it (an index or
    slice bound out of range, [make] with a negative length). *)
Inductive outcome (A : Type) : Type :=
| Returned (a : A)
| Panic.
Arguments Returned {A} a.
Arguments Panic {A}.

(** A non-nil [error], by its message. *)
Definition error : Type := string.

(** [image.Rectangle] and [image.Image].  [At x y] is
    [img.At(x, y).RGBA()]: the red, green, blue and alpha samples as
    [uint32] values. *)
Record Rectangle : Type :=
  mkRect { MinX : Z; MinY : Z; MaxX : Z; MaxY : Z }.
Definition Dx (r : Rectangle) : Z := MaxX r - MinX r.
Definition Dy (r : Rectangle) : Z := MaxY r - MinY r.

Record Image : Type :=
  mkImage { Bounds : Rectangle; At : Z -> Z -> Z * Z * Z * Z }.

End Go.

(** ** Go's [float32]

  IEEE-754 binary32 values, with the Standard Library's executable
  specification of binary floating point at precision 24 and maximal
  exponent 128.  Comparisons are those of IEEE-754: every comparison
  with a NaN is false. *)
Module Float32.

Definition prec : Z := 24.
Definition emax : Z := 128.

Definition float32 : Type := spec_float.

(** [float32(n)] for an integer [n]: round to nearest, ties to even. *)
Definition of_Z (n : Z) : float32 := binary_normalize prec emax n 0 false.

(** [x / y] in [float32]. *)
Definition div (x y : float32) : float32 := SFdiv prec emax x y.

(** Go's [x > y], [x <= y] and [x == y] on [float32]. *)
Definition gtb (x y : float32) : bool := SFltb y x.
Definition leb (x y : float32) : bool := SFleb x y.
Definition eqb (x y : float32) : bool := SFeqb x y.

Definition is_nan (x : float32) : bool :=
  match x with S754_nan => true | _ => false end.

Definition zero : float32 := S754_zero false.
Definition one : float32 := of_Z 1.

(** The closed unit interval, as the two Go comparisons
    [0 <= x && x <= 1]. *)
Definition in_unit (x : float32) : bool := leb zero x && leb x one.

(** *** The order on the values that are not NaN

    [key] sends a value to a triple of integers compared
    lexicographically: the class (negative infinity, negative, zero,
    positive, positive infinity), then exponent and mantissa, both negated
    for negative values. *)
Definition key (x : float32) : Z * Z * Z :=
  match x with
  | S754_infinity true => (-2, 0, 0)
  | S754_finite true m e => (-1, - e, - Zpos m)
  | S754_zero _ => (0, 0, 0)
  | S754_finite false m e => (1, e, Zpos m)
  | S754_infinity false => (2, 0, 0)
  | S754_nan => (3, 0, 0)
  end.

Definition lex_lt (a b : Z * Z * Z) : Prop :=
  let '(a1, a2, a3) := a in
  let '(b1, b2, b3) := b in
  a1 < b1 \/ (a1 = b1 /\ (a2 < b2 \/ (a2 = b2 /\ a3 < b3))).

Definition lex_le (a b : Z * Z * Z) : Prop :=
  let '(a1, a2, a3) := a in
  let '(b1, b2, b3) := b in
  a1 < b1 \/ (a1 = b1 /\ (a2 < b2 \/ (a2 = b2 /\ a3 <= b3))).

End Float32.

(** ** The top-K selector: [getTopK]

  [getTopK] is embedded as a program in a state-and-panic monad over the
  variables it can reach: the caller's [predictions] slice, the package
  variable [labels], the parameter [k] and the locals [preds] and
  [results].  An index expression outside the slice's length panics, as in
  Go. *)
Module TopK.
Import Go Float32.
Local Open Scope nat_scope.

(** [type pred struct { index int; value float32 }] *)
Record pred : Type := mkPred { index : nat; value : float32 }.

(** [type RecognitionResult struct { Label string; Confidence float32 }] *)
Record RecognitionResult : Type :=
  mkResult { Label : string; Confidence : float32 }.

(** The variables of a call.  Slices are held by value, one field per
    variable: Go's slices of different element types never share a backing
    array, and [preds] and [results] grow from nil by [append], so each has
    an array of its own. *)
Record Frame : Type := mkFrame {
  predictions : list float32;         (* the caller's slice *)
  labels : list string;               (* package variable *)
  k : Z;                              (* parameter, a Go int *)
  preds : list pred;                  (* local *)
  results : list RecognitionResult    (* local *)
}.

Definition M (A : Type) : Type := Frame -> outcome (A * Frame).

Definition ret {A} (a : A) : M A := fun f => Returned (a, f).
Definition bind {A B} (m : M A) (g : A -> M B) : M B :=
  fun f => match m f with
           | Returned (a, f') => g a f'
           | Panic => Panic
           end.

#[export] Instance M_ret : MRet M := @ret.
#[export] Instance M_bind : MBind M := fun A B g m => bind m g.

Definition get : M Frame := fun f => Returned (f, f).

Definition set_k (k' : Z) : M unit := fun f =>
  Returned (tt, mkFrame (predictions f) (labels f) k' (preds f) (results f)).
Definition with_preds (ps : list pred) (f : Frame) : Frame :=
  mkFrame (predictions f) (labels f) (k f) ps (results f).
Definition with_results (rs : list RecognitionResult) (f : Frame) : Frame :=
  mkFrame (predictions f) (labels f) (k f) (preds f) rs.

(** [preds = append(preds, p)] and [results = append(results, r)]. *)
Definition append_preds (p : pred) : M unit := fun f =>
  Returned (tt, with_preds (preds f ++ [p]) f).
Definition append_results (r : RecognitionResult) : M unit := fun f =>
  Returned (tt, with_results (results f ++ [r]) f).

(** [preds[i]] as an expression and as an assignment target. *)
Definition preds_at (i : nat) : M pred := fun f =>
  match preds f !! i with
  | Some p => Returned (p, f)
  | None => Panic
  end.
Definition preds_store (i : nat) (p : pred) : M unit := fun f =>
  match preds f !! i with
  | Some _ => Returned (tt, with_preds (<[i:=p]> (preds f)) f)
  | None => Panic
  end.

(** [labels[i]] *)
Definition labels_at (i : nat) : M string := fun f =>
  match labels f !! i with
  | Some s => Returned (s, f)
  | None => Panic
  end.

(** [for i := lo; i < hi; i++ { body }], for a body that assigns neither
    [i] nor anything [hi] depends on: [hi - lo] rounds, none when
    [hi <= lo]. *)
Fixpoint for_n (n : nat) (i : nat) (body : nat -> M unit) : M unit :=
  match n with
  | O => ret tt
  | S n' => body i ;; for_n n' (S i) body
  end.
Definition for_ (lo hi : nat) (body : nat -> M unit) : M unit :=
  for_n (hi - lo) lo body.

(** [for i, v := range xs { body }]: the slice is evaluated once. *)
Fixpoint for_range {A} (i : nat) (xs : list A) (body : nat -> A -> M unit)
  : M unit :=
  match xs with
  | [] => ret tt
  | v :: xs' => body i v ;; for_range (S i) xs' body
  end.

(** Lines 142-144: [if preds[j].value > preds[i].value
    { preds[i], preds[j] = preds[j], preds[i] }].  In the tuple assignment
    both right-hand sides are read before the first store. *)
Definition compare_swap (i j : nat) : M unit :=
  pj ← preds_at j;
  pi ← preds_at i;
  if gtb (value pj) (value pi) then
    pj' ← preds_at j;
    pi' ← preds_at i;
    preds_store i pj' ;;
    preds_store j pi'
  else ret tt.

(** Lines 140-146.  The bound of the outer loop is [len(preds)-1] on Go's
    signed [int]: no round for an empty slice, which is what the truncated
    subtraction on [nat] gives as well. *)
Definition sort_preds : M unit :=
  f0 ← get;
  for_ 0 (length (preds f0) - 1) (fun i =>
    f1 ← get;
    for_ (i + 1) (length (preds f1)) (fun j => compare_swap i j)).

(** Lines 151-161, one round. *)
Definition emit (i : nat) : M unit :=
  p ← preds_at i;
  let idx := index p in
  f ← get;
  label ← (if decide (idx < length (labels f)) then labels_at idx
            else ret "unknown"%string);
  p' ← preds_at i;
  append_results (mkResult label (value p')).

(** The body of [getTopK], lines 136-162. *)
Definition getTopK_body : M (list RecognitionResult) :=
  f0 ← get;
  for_range 0 (predictions f0) (fun i v => append_preds (mkPred i v)) ;;
  sort_preds ;;
  f1 ← get;
  (if (Z.of_nat (length (preds f1)) <? k f1)%Z
   then set_k (Z.of_nat (length (preds f1)))
   else ret tt) ;;
  f2 ← get;
  for_ 0 (Z.to_nat (k f2)) emit ;;
  f3 ← get;
  ret (results f3).

(** The frame a call starts in: the locals hold their zero values
    ([var preds []pred], [var results []RecognitionResult]). *)
Definition enter (predictions : list float32) (labels : list string) (k : Z)
  : Frame := mkFrame predictions labels k [] [].

(** [getTopK(predictions, k)] with the package variable [labels]: the
    value returned together with the frame the call ends in. *)
Definition getTopK_run (predictions : list float32) (labels : list string)
  (k : Z) : outcome (list RecognitionResult * Frame) :=
  getTopK_body (enter predictions labels k).

Definition getTopK (predictions : list float32) (labels : list string)
  (k : Z) : outcome (list RecognitionResult) :=
  match getTopK_run predictions labels k with
  | Returned (rs, _) => Returned rs
  | Panic => Panic
  end.

(** The entries selected by a call, in output order, read off the sorted
    [preds] the call ends with, and their class indices. *)
Definition selected (predictions : list float32) (labels : list string)
  (k : Z) : outcome (list pred) :=
  match getTopK_run predictions labels k with
  | Returned (rs, f) => Returned (take (length rs) (preds f))
  | Panic => Panic
  end.

Definition selected_indices (predictions : list float32)
  (labels : list string) (k : Z) : outcome (list nat) :=
  match selected predictions labels k with
  | Returned sel => Returned (map index sel)
  | Panic => Panic
  end.

(** *** What the loops compute

    The list functions below are what the monadic loops do to [preds] and
    [results]; the [_run] lemmas further down prove it. *)
Definition swap_step (i j : nat) (l : list pred) : list pred :=
  match l !! j, l !! i with
  | Some pj, Some pi =>
      if gtb (value pj) (value pi) then <[j:=pi]> (<[i:=pj]> l) else l
  | _, _ => l
  end.

Fixpoint inner (n i j : nat) (l : list pred) : list pred :=
  match n with
  | O => l
  | S n' => inner n' i (S j) (swap_step i j l)
  end.

Fixpoint outer (n i : nat) (l : list pred) : list pred :=
  match n with
  | O => l
  | S n' => outer n' (S i) (inner (length l - (i + 1)) i (i + 1) l)
  end.

Definition rank (l : list pred) : list pred := outer (length l - 1) 0 l.

Definition indexed (predictions : list float32) : list pred :=
  imap mkPred predictions.

Definition label_of (ls : list string) (idx : nat) : string :=
  default "unknown"%string (ls !! idx).

Definition to_result (ls : list string) (p : pred) : RecognitionResult :=
  mkResult (label_of ls (index p)) (value p).

(** [k] after lines 147-149. *)
Definition clamped (k : Z) (n : nat) : Z :=
  if (Z.of_nat n <? k)%Z then Z.of_nat n else k.

(** *** Sample values *)
Definition f32_ratio (a b : Z) : float32 := div (of_Z a) (of_Z b).

(** The vector of the specification's tie-break scenario and a vocabulary
    for it. *)
Definition tie_vector : list float32 :=
  [f32_ratio 5 10; f32_ratio 5 10; f32_ratio 9 10].
Definition abc : list string := ["a"; "b"; "c"]%string.

(** *** Predicates on [preds] used by the statements below *)

(** The order the specification words: of two selected entries the earlier
    has the greater confidence, or the same confidence and the lower class
    index. *)
Definition stable_descending (l : list pred) : Prop :=
  forall a b x y, a < b -> l !! a = Some x -> l !! b = Some y ->
    gtb (value x) (value y) = true \/
    (eqb (value x) (value y) = true /\ index x < index y).

(** Non-increasing confidence: no entry is below a later one. *)
Definition descending (l : list pred) : Prop :=
  forall a b x y, a < b -> l !! a = Some x -> l !! b = Some y ->
    leb (value y) (value x) = true.

(** A probability vector listed from the highest confidence down. *)
Definition sorted_desc (ps : list float32) : Prop :=
  Sorted (fun x y => leb y x = true) ps.

Definition no_nan (l : list pred) : Prop :=
  Forall (fun p => is_nan (value p) = false) l.

(** Position [i] holds a value no smaller than those at the positions
    after it and before [j]. *)
Definition leads (i j : nat) (l : list pred) : Prop :=
  forall m x y, i < m < j -> l !! i = Some x -> l !! m = Some y ->
                leb (value y) (value x) = true.

(** Each of the first [i] positions holds a value no smaller than any
    value after it. *)
Definition settled (i : nat) (l : list pred) : Prop :=
  forall p q x y, p < i -> p < q -> l !! p = Some x -> l !! q = Some y ->
                  leb (value y) (value x) = true.

Definition never_rises (l : list pred) : Prop :=
  forall p q x y, p < q -> l !! p = Some x -> l !! q = Some y ->
                  gtb (value y) (value x) = false.

End TopK.

(** ** The image decoder: [readImage] *)
Module Decode.
Import Go.
Local Open Scope nat_scope.

(** The reader handed to [readImage]: the bytes of the source and the read
    offset.  The readers modelled are those that have a [Seek] method, as
    the multipart file of the request handler has: line 53 calls [r.Seek],
    which Go accepts only on such a reader, so [readImage] as written has
    no behaviour on any other. *)
Record Reader : Type :=
  mkReader { data : list Byte.byte; pos : nat }.

(** The bytes a read from [r] can still get. *)
Definition remaining (r : Reader) : list Byte.byte := drop (pos r) (data r).

(** A codec's [Decode], which lives in Go's standard library: from the bytes
    the reader still holds, the decoded image or a failure, and the number
    of bytes it read before it stopped. *)
Definition Decoder : Type := list Byte.byte -> option Image * nat.

(** [codec.Decode(r)]: the reader's offset moves past what was read. *)
Definition decode (d : Decoder) (r : Reader) : option Image * Reader :=
  let '(res, n) := d (remaining r) in
  (res, mkReader (data r) (Nat.min (pos r + n) (length (data r)))).

(** [Seek(0, io.SeekStart)]; the caller discards its results. *)
Definition seek_start (r : Reader) : Reader := mkReader (data r) 0.

Definition unsupported : error :=
  "unsupported image format (only JPEG or PNG supported)"%string.

Section ReadImage.
Variables jpeg_Decode png_Decode : Decoder.

(** Lines 53-56, between the two attempts.  Line 53 calls [Seek] on the
    reader itself and keeps neither result ([err] is overwritten on line
    57); lines 54-56 seek again behind the type assertion [r.(io.Seeker)],
    which holds for every reader that has a [Seek] method. *)
Definition rewind (r : Reader) : Reader :=
  let r := seek_start r in
  seek_start r.

(** [readImage], lines 48-62: the decoded image or the error, and the reader
    as the call leaves it. *)
Definition readImage (r : Reader) : (Image + error) * Reader :=
  let '(img, r1) := decode jpeg_Decode r in
  match img with
  | Some img => (inl img, r1)
  | None =>
      let r2 := rewind r1 in
      let '(img, r3) := decode png_Decode r2 in
      match img with
      | Some img => (inl img, r3)
      | None => (inr unsupported, r3)
      end
  end.

(** The bytes each attempt is run on: the JPEG attempt on what the reader
    holds at entry, the PNG attempt on what it holds after the failed JPEG
    attempt and lines 53-56. *)
Definition jpeg_view (r : Reader) : list Byte.byte := remaining r.
Definition png_view (r : Reader) : list Byte.byte :=
  remaining (rewind (snd (decode jpeg_Decode r))).

(** The decoder as the specification words it: every codec is tried, in
    priority order, on the same input bytes, and the first success wins. *)
Fixpoint first_success (codecs : list Decoder) (bytes : list Byte.byte)
  : option Image :=
  match codecs with
  | [] => None
  | d :: ds =>
      match fst (d bytes) with
      | Some img => Some img
      | None => first_success ds bytes
      end
  end.

Definition decode_spec (bytes : list Byte.byte) : Image + error :=
  match first_success [jpeg_Decode; png_Decode] bytes with
  | Some img => inl img
  | None => inr unsupported
  end.

End ReadImage.

(** *** Stand-in codecs for examples

    A codec that reads its format's signature and accepts exactly the
    sources that start with it. *)
Fixpoint starts_with (magic bytes : list Byte.byte) : bool :=
  match magic, bytes with
  | [], _ => true
  | _ :: _, [] => false
  | m :: magic', b :: bytes' => Byte.eqb m b && starts_with magic' bytes'
  end.

Definition sniff (magic : list Byte.byte) (img : Image) : Decoder :=
  fun bytes =>
    (if starts_with magic bytes then Some img else None,
     Nat.min (length magic) (length bytes)).

Definition jpeg_magic : list Byte.byte := [Byte.xff; Byte.xd8].
Definition png_magic : list Byte.byte :=
  [Byte.x89; Byte.x50; Byte.x4e; Byte.x47;
   Byte.x0d; Byte.x0a; Byte.x1a; Byte.x0a].

Definition blank (w h : Z) : Image :=
  mkImage (mkRect 0 0 w h) (fun _ _ => (0, 0, 0, 0)%Z).

Definition toy_jpeg : Decoder := sniff jpeg_magic (blank 2 2).
Definition toy_png : Decoder := sniff png_magic (blank 1 1).

(** A PNG source of nine bytes, behind a reader that stands at its
    start. *)
Definition png_bytes : list Byte.byte := png_magic ++ [Byte.x00].


End Decode.

(** ** The tensor preprocessor: [preprocessImage] *)
Module Preprocess.
Import Go Float32.
Local Open Scope nat_scope.

(** Package variables, never assigned after their initialisation. *)
Definition inputHeight : Z := 224.
Definition inputWidth : Z := 224.

(** [resize.InterpolationFunction] *)
Inductive InterpolationFunction : Type :=
| NearestNeighbor | Bilinear | Bicubic | MitchellNetravali | Lanczos2
| Lanczos3.

(** The values [preprocessImage] hands to [tf.NewTensor]. *)
Definition Batch : Type := list (list (list (list float32))).
Inductive GoValue : Type :=
| IntArray (xs : list Z)                (* [1]int{1} *)
| Float32Slice4 (b : Batch).            (* [][][][]float32 *)

(** [uint(n)] on a 64-bit platform. *)
Definition uint (n : Z) : Z := (n mod 2 ^ 64)%Z.

(** [float32(c)/65535.0] *)
Definition normalize (c : Z) : float32 := div (of_Z c) (of_Z 65535).

(** *** Lines 70-79: the samples, flattened *)
Definition pixel_step (resized : Image) (y x : nat) (imgData : list float32)
  : list float32 :=
  let '(r, g, b, _) := At resized (Z.of_nat x) (Z.of_nat y) in
  ((imgData ++ [normalize r]) ++ [normalize g]) ++ [normalize b].

Definition collect (resized : Image) (width height : Z) : list float32 :=
  foldl (fun imgData y =>
           foldl (fun imgData x => pixel_step resized y x imgData)
                 imgData (seq 0 (Z.to_nat width)))
        [] (seq 0 (Z.to_nat height)).

(** *** Lines 84-95: the batch

    Slices are values here; [None] is a run-time panic. *)
Definition make {A} (zero : A) (n : Z) : option (list A) :=
  if (n <? 0)%Z then None else Some (replicate (Z.to_nat n) zero).

(** [l[i] = x] *)
Definition store {A} (l : list A) (i : nat) (x : A) : option (list A) :=
  match l !! i with
  | Some _ => Some (<[i:=x]> l)
  | None => None
  end.

(** [s[lo:hi]], which this model lets panic as soon as [hi] exceeds the
    length (Go allows it up to the capacity). *)
Definition slice {A} (s : list A) (lo hi : nat) : option (list A) :=
  if decide (lo <= hi <= length s) then Some (take (hi - lo) (drop lo s))
  else None.

(** [copy(dst, src)]: the first [min(len(dst), len(src))] elements. *)
Definition copy {A} (dst src : list A) : list A :=
  take (length dst) src ++ drop (length src) dst.

Fixpoint for_opt {St} (n i : nat) (body : nat -> St -> option St) (s : St)
  : option St :=
  match n with
  | O => Some s
  | S n' => s' ← body i s; for_opt n' (S i) body s'
  end.

(** Lines 90-93; the state is [batch[0]] and [idx]. *)
Definition pack_pixel (imgData : list float32) (y x : nat)
  (st : list (list (list float32)) * nat)
  : option (list (list (list float32)) * nat) :=
  let '(b0, idx) := st in
  p ← make zero 3;
  src ← slice imgData idx (idx + 3);
  let p := copy p src in
  row ← b0 !! y;
  row' ← store row x p;
  b0' ← store b0 y row';
  Some (b0', idx + 3).

(** Lines 88-94. *)
Definition pack_row (imgData : list float32) (width : Z) (y : nat)
  (st : list (list (list float32)) * nat)
  : option (list (list (list float32)) * nat) :=
  let '(b0, idx) := st in
  row ← make [] width;
  b0' ← store b0 y row;
  for_opt (Z.to_nat width) 0 (pack_pixel imgData y) (b0', idx).

(** Lines 84-95. *)
Definition pack (height width : Z) (imgData : list float32) : option Batch :=
  batch ← make [] 1;
  b0 ← make [] height;
  batch ← store batch 0 b0;
  '(b0', _) ← for_opt (Z.to_nat height) 0 (pack_row imgData width) (b0, 0);
  store batch 0 b0'.

(** *** The function, as a tree of its calls into the two libraries *)
Section Externals.
Context {Tensor : Type}.

Inductive prog (R : Type) : Type :=
| Done (r : R)
| Panicked
| CallResize (width height : Z) (img : Image) (interp : InterpolationFunction)
    (k : Image -> prog R)
| CallNewTensor (v : GoValue) (k : Tensor + error -> prog R).
Arguments Done {R} r.
Arguments Panicked {R}.
Arguments CallResize {R} width height img interp k.
Arguments CallNewTensor {R} v k.

(** [preprocessImage], lines 64-103. *)
Definition preprocessImage (img : Image) : prog (Tensor + error) :=
  CallResize (uint inputWidth) (uint inputHeight) img Lanczos3 (fun resized =>
  let bounds := Bounds resized in
  let width := Dx bounds in
  let height := Dy bounds in
  let imgData := collect resized width height in
  CallNewTensor (IntArray [1%Z]) (fun r =>
  match r with
  | inr err => Done (inr err)
  | inl _ =>
      match pack height width imgData with
      | None => Panicked
      | Some batch =>
          CallNewTensor (Float32Slice4 batch) (fun r =>
          match r with
          | inr err => Done (inr err)
          | inl tensor => Done (inl tensor)
          end)
      end
  end)).

(** The two libraries, as the functions they compute. *)
Record Env : Type := mkEnv {
  resize_Resize : Z -> Z -> Image -> InterpolationFunction -> Image;
  tf_NewTensor : GoValue -> Tensor + error
}.

Fixpoint run {R} (env : Env) (p : prog R) : outcome R :=
  match p with
  | Done r => Returned r
  | Panicked => Panic
  | CallResize w h img interp k =>
      run env (k (resize_Resize env w h img interp))
  | CallNewTensor v k => run env (k (tf_NewTensor env v))
  end.

(** Whether the first thing a program does is to call the resampler on
    [img], for the target [width] by [height] and with the filter
    [interp]. *)
Definition resamples_first {R} (width height : Z)
  (interp : InterpolationFunction) (img : Image) (p : prog R) : Prop :=
  match p with
  | CallResize width' height' img' interp' _ =>
      width' = width /\ height' = height /\ img' = img /\ interp' = interp
  | _ => False
  end.

(** Whether a program ends, without calling anything, in the error [e]. *)
Definition rejects_with {R} (e : error) (p : prog (R + error)) : Prop :=
  match p with
  | Done (inr e') => e' = e
  | _ => False
  end.

End Externals.
Arguments prog : clear implicits.
Arguments Env : clear implicits.

(** *** What the statements below are about *)

(** The documented behaviour of [resize.Resize] on an image that has pixels,
    for a non-zero target: the result has exactly the target size. *)
Definition resize_contract {Tensor} (env : Env Tensor) : Prop :=
  forall w h img interp,
    (0 < w)%Z -> (0 < h)%Z ->
    (0 < Dx (Bounds img))%Z -> (0 < Dy (Bounds img))%Z ->
    Dx (Bounds (resize_Resize env w h img interp)) = w /\
    Dy (Bounds (resize_Resize env w h img interp)) = h.

(** The [color.Color] contract of [RGBA()]: 16-bit samples in a [uint32]. *)
Definition sample_ok (c : Z) : Prop := (0 <= c <= 65535)%Z.
Definition valid_samples (img : Image) : Prop :=
  forall x y,
    let '(r, g, b, _) := At img x y in
    sample_ok r /\ sample_ok g /\ sample_ok b.

(** An 8-bit sample [v], as [RGBA()] widens it: [v |= v << 8]. *)
Definition widen8 (v : Z) : Z := Z.lor v (Z.shiftl v 8).

(** The normalized triple of the pixel at [(x, y)]. *)
Definition pixel (resized : Image) (y x : nat) : list float32 :=
  let '(r, g, b, _) := At resized (Z.of_nat x) (Z.of_nat y) in
  [normalize r; normalize g; normalize b].

(** The batch in the layout [1, H, W, 3]: rows outermost, then columns,
    then the three channels. *)
Definition layout (resized : Image) : Batch :=
  [ map (fun y => map (fun x => pixel resized y x)
                    (seq 0 (Z.to_nat (Dx (Bounds resized)))))
        (seq 0 (Z.to_nat (Dy (Bounds resized)))) ].

(** The rows of the batch and the samples of one row, flattened. *)
Definition row (resized : Image) (w : nat) (y : nat) : list (list float32) :=
  map (fun x => pixel resized y x) (seq 0 w).
Definition row_data (resized : Image) (w : nat) (y : nat) : list float32 :=
  flat_map (fun x => pixel resized y x) (seq 0 w).

(** The numbers below [n], from [c] on, all pass the test [P]. *)
Fixpoint all_from (n : nat) (c : Z) (P : Z -> bool) : bool :=
  match n with
  | O => true
  | S n' => P c && all_from n' (c + 1)%Z P
  end.

(** A stand-in for a [tf.NewTensor] that refuses every value. *)
Definition refusing_env : Env GoValue :=
  mkEnv (fun _ _ img _ => img) (fun _ => inr "unsupported type"%string).

(** A batch has shape [[n; h; w; c]] when every level is rectangular. *)
Definition has_shape (b : Batch) (n h w c : nat) : Prop :=
  length b = n /\
  Forall (fun img => length img = h /\
     Forall (fun row => length row = w /\
        Forall (fun px => length px = c) row) img) b.

Definition all_values (P : float32 -> Prop) (b : Batch) : Prop :=
  Forall (Forall (Forall (Forall P))) b.

(** *** Stand-ins for the two libraries, for examples *)
Definition toy_resize (w h : Z) (img : Image) (_ : InterpolationFunction)
  : Image :=
  if ((Dx (Bounds img) <=? 0) || (Dy (Bounds img) <=? 0))%Z then img
  else mkImage (mkRect 0 0 w h)
         (fun x y => At img (MinX (Bounds img) + x * Dx (Bounds img) / w)
                            (MinY (Bounds img) + y * Dy (Bounds img) / h))%Z.

Definition toy_env : Env GoValue := mkEnv toy_resize (fun v => inl v).

(** The same resampler with a tensor constructor that refuses the value of
    line 80, an array of Go's [int], and accepts the batch. *)
Definition probe_refusing_env : Env GoValue :=
  mkEnv toy_resize
    (fun v => match v with
              | IntArray _ => inr "unsupported type int"%string
              | Float32Slice4 _ => inl v
              end).

Definition one_pixel : Image :=
  mkImage (mkRect 0 0 1 1) (fun _ _ => (65535, 32768, 0, 65535)%Z).
Definition no_pixel : Image :=
  mkImage (mkRect 0 0 0 0) (fun _ _ => (0, 0, 0, 0)%Z).

End Preprocess.

(** ** The label vocabulary: [loadLabels] *)
Module Labels.
Import Stdlib.Strings.Ascii.
Import Go.
Local Open Scope string_scope.

(** *** [strings.Split(s, "\n")] and [strings.TrimSpace]

    Both belong to Go's standard library.  A Go string is a sequence of
    bytes, here a [string] of the Standard Library. *)
Definition is_nl (c : ascii) : bool := Ascii.eqb c "010"%char.

(** The pieces between the newline bytes: one more piece than there are
    newlines, the empty string giving one empty piece. *)
Fixpoint Split_nl (s : string) : list string :=
  match s with
  | EmptyString => [EmptyString]
  | String c s' =>
      if is_nl c then EmptyString :: Split_nl s'
      else match Split_nl s' with
           | [] => [String c EmptyString]
           | l :: ls => String c l :: ls
           end
  end.

(** The table [asciiSpace]: tab, newline, vertical tab, form feed, carriage
    return, space. *)
Definition asciiSpace (c : ascii) : bool :=
  Ascii.eqb c "009"%char || Ascii.eqb c "010"%char || Ascii.eqb c "011"%char
  || Ascii.eqb c "012"%char || Ascii.eqb c "013"%char || Ascii.eqb c " "%char.

(** [c < utf8.RuneSelf]: the byte is a whole ASCII character. *)
Definition is_ascii (c : ascii) : bool :=
  match c with Ascii _ _ _ _ _ _ _ b7 => negb b7 end.

Fixpoint last_byte (s : string) : option ascii :=
  match s with
  | EmptyString => None
  | String c EmptyString => Some c
  | String _ s' => last_byte s'
  end.

(** [s] without the ASCII white space at its end. *)
Fixpoint drop_right_spaces (s : string) : string :=
  match s with
  | EmptyString => EmptyString
  | String c s' =>
      match drop_right_spaces s' with
      | EmptyString => if asciiSpace c then EmptyString
                       else String c EmptyString
      | t => String c t
      end
  end.

Section TrimSpace.
(** The Unicode-aware trimming [TrimSpace] falls back to on a byte that is
    not ASCII: [strings.TrimFunc(s, unicode.IsSpace)] and
    [strings.TrimRightFunc(s, unicode.IsSpace)]. *)
Variables TrimFunc_IsSpace TrimRightFunc_IsSpace : string -> string.

(** The second loop of [TrimSpace], run on a string that starts with an
    ASCII byte that is no white space. *)
Definition trim_right (s : string) : string :=
  let t := drop_right_spaces s in
  match last_byte t with
  | Some c => if is_ascii c then t else TrimRightFunc_IsSpace t
  | None => t
  end.

Fixpoint TrimSpace (s : string) : string :=
  match s with
  | EmptyString => EmptyString
  | String c s' =>
      if negb (is_ascii c) then TrimFunc_IsSpace s
      else if asciiSpace c then TrimSpace s'
      else trim_right s
  end.

(** Lines 39-44, one round of the loop over [lines]. *)
Definition keep (filtered : list string) (line : string) : list string :=
  let line := TrimSpace line in
  if String.eqb line "" then filtered else filtered ++ [line].

(** Lines 37-45: the labels of a file's content. *)
Definition parse (content : string) : list string :=
  let lines := Split_nl content in
  foldl keep [] lines.

(** [loadLabels], lines 32-46, with [ioutil.ReadFile] as the function from
    file names to contents or errors. *)
Definition loadLabels (ReadFile : string -> string + error)
  (filename : string) : list string + error :=
  match ReadFile filename with
  | inr err => inr err
  | inl content => inl (parse content)
  end.

End TrimSpace.

(** *** What the statements below are about *)

(** A label as a vocabulary file is meant to hold it: not empty, without a
    newline, and with an ASCII character that is no white space at either
    end (other bytes may occur in between). *)
Definition edge_ok (c : ascii) : bool := is_ascii c && negb (asciiSpace c).

Fixpoint no_nl (s : string) : bool :=
  match s with
  | EmptyString => true
  | String c s' => negb (is_nl c) && no_nl s'
  end.

Definition clean (l : string) : bool :=
  match l with
  | EmptyString => false
  | String c _ =>
      edge_ok c && no_nl l
      && match last_byte l with Some d => edge_ok d | None => false end
  end.

(** ASCII white space other than the newline: blanks, tabs, the carriage
    return of a CRLF line end. *)
Fixpoint padding (s : string) : bool :=
  match s with
  | EmptyString => true
  | String c s' => asciiSpace c && negb (is_nl c) && padding s'
  end.

(** A line of a vocabulary file: blank, or a label with padding around
    it. *)
Inductive Line : Type :=
| Blank (ws : string)
| Entry (before : string) (label : string) (after : string).

Definition line_ok (l : Line) : bool :=
  match l with
  | Blank ws => padding ws
  | Entry b l a => padding b && clean l && padding a
  end.

Definition line_text (l : Line) : string :=
  match l with
  | Blank ws => ws
  | Entry b l a => b ++ l ++ a
  end.

Definition line_labels (l : Line) : list string :=
  match l with
  | Blank _ => []
  | Entry _ l _ => [l]
  end.

(** The file with the given lines, a newline between each two. *)
Definition file_text (ls : list Line) : string :=
  String.concat (String "010"%char EmptyString) (map line_text ls).

Fixpoint count_nl (s : string) : nat :=
  match s with
  | EmptyString => 0
  | String c s' => (if is_nl c then 1 else 0) + count_nl s'
  end.

(** A file of three labels with a blank line, indentation and CRLF line
    ends, and a file system that holds it. *)
Definition cr : string := String "013"%char EmptyString.
Definition sample_lines : list Line :=
  [Entry "" "tabby cat" cr; Blank cr; Entry "  " "golden retriever" cr;
   Entry "" "goldfish" ""; Blank ""].
Definition sample_fs (name : string) : string + error :=
  if String.eqb name "labels.txt" then inl (file_text sample_lines)
  else inr "open: no such file or directory".

End Labels.

(** ** Inference and the request handler: [recognizeImage],
    [recognizeHandler] *)
Module Server.
Import Stdlib.Strings.Ascii.
Import Go Float32 TopK Decode Preprocess.
Import stdpp.gmap stdpp.strings.
Local Open Scope string_scope.

(** The dynamic value of an output tensor, [output[i].Value()]: a
    [[][]float32] or something else. *)
Inductive TensorValue : Type :=
| Float32Matrix (m : list (list float32))
| OtherValue.

(** The server's [http.ResponseWriter]: the header map, the status line
    once it is written, and the body written so far. *)
Record ResponseWriter : Type := mkWriter {
  Header : gmap string string;
  status : option Z;
  body : string
}.

Definition fresh : ResponseWriter := mkWriter ∅ None "".

(** [w.Header().Set(key, value)] *)
Definition Header_Set (key value : string) (w : ResponseWriter)
  : ResponseWriter :=
  mkWriter (<[key:=value]> (Header w)) (status w) (body w).

(** [w.WriteHeader(code)]: the first status written stays. *)
Definition WriteHeader (code : Z) (w : ResponseWriter) : ResponseWriter :=
  match status w with
  | Some _ => w
  | None => mkWriter (Header w) (Some code) (body w)
  end.

(** [w.Write(data)]: a first write without a status writes 200. *)
Definition Write (data : string) (w : ResponseWriter) : ResponseWriter :=
  let w := WriteHeader 200 w in
  mkWriter (Header w) (status w) (body w ++ data).

Definition newline : string := String "010"%char EmptyString.

(** [http.Error(w, msg, code)] on a response that has no headers yet: a
    plain-text reply of one line. *)
Definition http_Error (msg : string) (code : Z) (w : ResponseWriter)
  : ResponseWriter :=
  let w := Header_Set "Content-Type" "text/plain; charset=utf-8" w in
  let w := Header_Set "X-Content-Type-Options" "nosniff" w in
  let w := WriteHeader code w in
  Write (msg ++ newline) w.

(** The request, as far as the handler looks at it: the method and what
    [r.FormFile("image")] gives. *)
Record Request : Type := mkRequest {
  Method : string;
  FormFile_image : Reader + error
}.

Section World.
Context {Tensor : Type}.

(** What the handler reaches outside this file: the two codecs, the
    resampler and tensor constructor, [session.Run] on the graph's input
    and output operations, the loaded vocabulary, and [encoding/json]. *)
Record World : Type := mkWorld {
  jpeg : Decoder;
  png : Decoder;
  libs : Env Tensor;
  session_Run : Tensor -> list TensorValue + error;
  vocabulary : list string;
  json : list RecognitionResult -> string + error
}.

(** [recognizeImage], lines 105-124.  The type assertion and the two index
    expressions of line 119 panic on an output that is not a non-empty
    [[][]float32]. *)
Definition recognizeImage (wd : World) (tensor : Tensor)
  : outcome (list RecognitionResult + error) :=
  match session_Run wd tensor with
  | inr err => Returned (inr err)
  | inl output =>
      match output with
      | [] => Panic
      | OtherValue :: _ => Panic
      | Float32Matrix [] :: _ => Panic
      | Float32Matrix (predictions :: _) :: _ =>
          match getTopK predictions (vocabulary wd) 5 with
          | Returned results => Returned (inl results)
          | Panic => Panic
          end
      end
  end.

(** [json.NewEncoder(w).Encode(results)]: the encoding and a newline, or
    nothing at all when the value cannot be encoded; the handler drops the
    error. *)
Definition Encode (wd : World) (results : list RecognitionResult)
  (w : ResponseWriter) : ResponseWriter :=
  match json wd results with
  | inl text => Write (text ++ newline) w
  | inr _ => w
  end.

(** [recognizeHandler], lines 165-197: the response as the handler leaves
    it, unless a panic unwinds it. *)
Definition recognizeHandler (wd : World) (w : ResponseWriter) (r : Request)
  : outcome ResponseWriter :=
  if negb (String.eqb (Method r) "POST") then
    Returned (http_Error "Method not allowed, use POST" 405 w)
  else
    match FormFile_image r with
    | inr err =>
        Returned (http_Error ("Error reading image file: " ++ err) 400 w)
    | inl file =>
        match fst (readImage (jpeg wd) (png wd) file) with
        | inr err =>
            Returned (http_Error ("Error decoding image: " ++ err) 400 w)
        | inl img =>
            match run (libs wd) (preprocessImage img) with
            | Panic => Panic
            | Returned (inr err) =>
                Returned
                  (http_Error ("Error preprocessing image: " ++ err) 500 w)
            | Returned (inl inputTensor) =>
                match recognizeImage wd inputTensor with
                | Panic => Panic
                | Returned (inr err) =>
                    Returned
                      (http_Error ("Error running inference: " ++ err) 500 w)
                | Returned (inl results) =>
                    let w := Header_Set "Content-Type" "application/json" w in
                    Returned (Encode wd results w)
                end
            end
        end
    end.

End World.
Arguments World : clear implicits.

(** *** What the statements below are about *)

(** The plain-text reply [http.Error] leaves on a fresh response. *)
Definition error_reply (msg : string) (code : Z) : ResponseWriter :=
  mkWriter (<["X-Content-Type-Options":="nosniff"]>
              (<["Content-Type":="text/plain; charset=utf-8"]> ∅))
           (Some code) (msg ++ newline).

(** The status the client sees: 200 when the handler wrote none. *)
Definition seen_status (w : ResponseWriter) : Z := default 200%Z (status w).

(** An uploaded file as the multipart reader hands it over: at its
    start. *)
Definition upload (bytes : list Byte.byte) : Reader := mkReader bytes 0.

(** A world for examples: the signature-checking codecs, a resampler that
    hands the image back as it is, a tensor constructor that accepts every
    value, an engine that answers with a fixed row of three confidences, and
    an encoder that prints the labels. *)
Definition toy_json (rs : list RecognitionResult) : string + error :=
  inl (String.concat "," (map Label rs)).

Definition toy_libs : Env GoValue :=
  mkEnv (fun _ _ img _ => img) (fun v => inl v).

Definition toy_world : World GoValue :=
  mkWorld toy_jpeg toy_png toy_libs
    (fun _ => inl [Float32Matrix [tie_vector]]) abc toy_json.

(** The same world with a tensor constructor that refuses every value. *)
Definition refusing_world : World GoValue :=
  mkWorld toy_jpeg toy_png refusing_env
    (fun _ => inl [Float32Matrix [tie_vector]]) abc toy_json.

End Server.

(** ** The order on [float32] *)
Module Float32Facts.
Import Float32.

Ltac cmp_cases :=
  repeat match goal with
    | |- context [Z.compare ?a ?b] => destruct (Z.compare_spec a b)
    | |- context [Pos.compare_cont Eq ?a ?b] =>
        change (Pos.compare_cont Eq a b) with (Pos.compare a b);
        destruct (Pos.compare_spec a b)
    end.

Lemma SFltb_key (x y : float32) :
  is_nan x = false -> is_nan y = false ->
  SFltb x y = true <-> lex_lt (key x) (key y).
Proof.
  unfold SFltb.
  destruct x as [[]|[]| |[] mx ex], y as [[]|[]| |[] my ey];
    cbn; intros Hx Hy; try discriminate; cmp_cases; cbn;
    split; intro; try discriminate; try lia; try reflexivity.
Qed.

Lemma SFleb_key (x y : float32) :
  is_nan x = false -> is_nan y = false ->
  SFleb x y = true <-> lex_le (key x) (key y).
Proof.
  unfold SFleb.
  destruct x as [[]|[]| |[] mx ex], y as [[]|[]| |[] my ey];
    cbn; intros Hx Hy; try discriminate; cmp_cases; cbn;
    split; intro; try discriminate; try lia; try reflexivity.
Qed.

Lemma leb_not_nan (x y : float32) :
  leb x y = true -> is_nan x = false /\ is_nan y = false.
Proof.
  unfold leb, SFleb. destruct x as [[]|[]| |[] ? ?], y as [[]|[]| |[] ? ?];
    cbn; intros H; try discriminate; split; reflexivity.
Qed.

Lemma gtb_not_nan (x y : float32) :
  gtb x y = true -> is_nan x = false /\ is_nan y = false.
Proof.
  unfold gtb, SFltb. destruct x as [[]|[]| |[] ? ?], y as [[]|[]| |[] ? ?];
    cbn; intros H; try discriminate; split; reflexivity.
Qed.

Ltac key_lia :=
  repeat match goal with
    | |- context [key ?x] => destruct (key x) as [[? ?] ?]
    | H : context [key ?x] |- _ => destruct (key x) as [[? ?] ?]
    end;
  cbn in *; lia.

(** [<=] is transitive. *)
Lemma leb_trans (x y z : float32) :
  leb x y = true -> leb y z = true -> leb x z = true.
Proof.
  intros Hxy Hyz.
  destruct (leb_not_nan _ _ Hxy) as [Hx Hy].
  destruct (leb_not_nan _ _ Hyz) as [_ Hz].
  unfold leb in *.
  rewrite SFleb_key in * by assumption. key_lia.
Qed.

(** Away from NaN the order is total: when [y > x] is false, [y <= x]. *)
Lemma not_gtb_leb (x y : float32) :
  is_nan x = false -> is_nan y = false ->
  gtb y x = false -> leb y x = true.
Proof.
  intros Hx Hy H. unfold leb, gtb in *.
  apply SFleb_key; [assumption..|].
  assert (Hn : ~ lex_lt (key x) (key y)).
  { intros HH. apply SFltb_key in HH; [congruence|assumption..]. }
  key_lia.
Qed.

(** [y > x] gives [x <= y]. *)
Lemma gtb_leb (x y : float32) : gtb y x = true -> leb x y = true.
Proof.
  intros H. destruct (gtb_not_nan _ _ H) as [Hy Hx].
  unfold leb, gtb in *.
  apply SFleb_key; [assumption..|].
  apply SFltb_key in H; [|assumption..]. key_lia.
Qed.

(** [x <= y] excludes [x > y]. *)
Lemma leb_not_gtb (x y : float32) : leb x y = true -> gtb x y = false.
Proof.
  intros H. destruct (leb_not_nan _ _ H) as [Hx Hy].
  destruct (gtb x y) eqn:E; [|reflexivity].
  unfold leb, gtb in *.
  apply SFleb_key in H; [|assumption..].
  apply SFltb_key in E; [|assumption..]. key_lia.
Qed.

End Float32Facts.

(** ** Proofs about [getTopK] *)
Module TopKFacts.
Import Go Float32 Float32Facts TopK.
Local Open Scope nat_scope.

Example tie_vector_run :
  getTopK tie_vector abc 3
  = Returned [mkResult "c" (f32_ratio 9 10); mkResult "b" (f32_ratio 5 10);
              mkResult "a" (f32_ratio 5 10)].
Proof. vm_compute. reflexivity. Qed.



Ltac go := unfold mbind, M_bind, bind, mret, M_ret, ret, get; cbn.

Lemma with_preds_id (f : Frame) : with_preds (preds f) f = f.
Proof. destruct f; reflexivity. Qed.

Lemma with_preds_twice (l l' : list pred) (f : Frame) :
  with_preds l (with_preds l' f) = with_preds l f.
Proof. destruct f; reflexivity. Qed.

Lemma with_results_twice (l l' : list RecognitionResult) (f : Frame) :
  with_results l (with_results l' f) = with_results l f.
Proof. destruct f; reflexivity. Qed.

Lemma with_results_id (f : Frame) : with_results (results f) f = f.
Proof. destruct f; reflexivity. Qed.

(** **** Lengths *)
Lemma length_swap_step (i j : nat) (l : list pred) :
  length (swap_step i j l) = length l.
Proof.
  unfold swap_step. destruct (l !! j), (l !! i); try reflexivity.
  destruct (gtb _ _); [|reflexivity]. now rewrite !length_insert.
Qed.

Lemma length_inner (n i j : nat) (l : list pred) :
  length (inner n i j l) = length l.
Proof.
  revert j l. induction n as [|n IH]; intros j l; cbn; [reflexivity|].
  now rewrite IH, length_swap_step.
Qed.

Lemma length_outer (n i : nat) (l : list pred) :
  length (outer n i l) = length l.
Proof.
  revert i l. induction n as [|n IH]; intros i l; cbn; [reflexivity|].
  now rewrite IH, length_inner.
Qed.

Lemma length_rank (l : list pred) : length (rank l) = length l.
Proof. apply length_outer. Qed.

Lemma length_indexed (ps : list float32) : length (indexed ps) = length ps.
Proof. apply length_imap. Qed.

(** **** The loops run to their list functions *)
Lemma for_range_run (xs : list float32) (i : nat) (f : Frame) :
  for_range i xs (fun i v => append_preds (mkPred i v)) f
  = Returned (tt, with_preds
                    (preds f ++ imap (fun j v => mkPred (i + j) v) xs) f).
Proof.
  revert i f. induction xs as [|v xs IH]; intros i f; cbn.
  - go. now rewrite app_nil_r, with_preds_id.
  - go. unfold append_preds at 1. rewrite IH. cbn.
    rewrite with_preds_twice, <- app_assoc. cbn.
    do 3 f_equal. rewrite Nat.add_0_r. do 2 f_equal.
    apply imap_ext. intros j x _. cbn. f_equal. lia.
Qed.

Lemma compare_swap_run (i j : nat) (f : Frame) :
  i < length (preds f) -> j < length (preds f) ->
  compare_swap i j f = Returned (tt, with_preds (swap_step i j (preds f)) f).
Proof.
  intros Hi Hj.
  destruct (lookup_lt_is_Some_2 _ _ Hi) as [pi Epi].
  destruct (lookup_lt_is_Some_2 _ _ Hj) as [pj Epj].
  unfold compare_swap, swap_step. go. unfold preds_at.
  rewrite Epj, Epi. cbn.
  destruct (gtb (value pj) (value pi)).
  - go. unfold preds_at, preds_store. rewrite Epj, Epi. cbn.
    rewrite Epi. cbn.
    assert (is_Some (<[i:=pj]> (preds f) !! j)) as [x Ex].
    { apply lookup_lt_is_Some_2. now rewrite length_insert. }
    rewrite Ex. now rewrite with_preds_twice.
  - now rewrite with_preds_id.
Qed.

Lemma inner_run (i n j : nat) (f : Frame) :
  i < length (preds f) -> j + n <= length (preds f) ->
  for_n n j (fun j => compare_swap i j) f
  = Returned (tt, with_preds (inner n i j (preds f)) f).
Proof.
  revert j f. induction n as [|n IH]; intros j f Hi Hj; cbn.
  - go. now rewrite with_preds_id.
  - go. rewrite compare_swap_run by lia.
    rewrite IH; cbn; rewrite ?length_swap_step; try lia.
    now rewrite with_preds_twice.
Qed.

Lemma outer_run (n i : nat) (f : Frame) :
  i + n <= length (preds f) - 1 ->
  for_n n i (fun i => f1 ← get;
               for_ (i + 1) (length (preds f1))
                 (fun j => compare_swap i j)) f
  = Returned (tt, with_preds (outer n i (preds f)) f).
Proof.
  revert i f. induction n as [|n IH]; intros i f Hn; cbn.
  - go. now rewrite with_preds_id.
  - go. unfold for_. rewrite inner_run by lia.
    rewrite IH; cbn; rewrite ?length_inner; try lia.
    now rewrite with_preds_twice.
Qed.

Lemma sort_preds_run (f : Frame) :
  sort_preds f = Returned (tt, with_preds (rank (preds f)) f).
Proof.
  unfold sort_preds. go. unfold for_. rewrite Nat.sub_0_r.
  now rewrite outer_run by lia.
Qed.

Lemma label_of_lookup (ls : list string) (idx : nat) (f : Frame) :
  labels f = ls ->
  (if decide (idx < length (labels f)) then labels_at idx
   else mret "unknown"%string) f = Returned (label_of ls idx, f).
Proof.
  intros <-. unfold label_of, labels_at. destruct (decide _) as [H|H].
  - destruct (lookup_lt_is_Some_2 _ _ H) as [s Es]. now rewrite Es.
  - rewrite lookup_ge_None_2 by lia. reflexivity.
Qed.

Lemma emit_run (i : nat) (f : Frame) (p : pred) :
  preds f !! i = Some p ->
  emit i f
  = Returned (tt, with_results (results f ++ [to_result (labels f) p]) f).
Proof.
  intros Ep. unfold emit. go. unfold preds_at at 1. rewrite Ep.
  rewrite (label_of_lookup (labels f)) by reflexivity.
  unfold preds_at. rewrite Ep. reflexivity.
Qed.

Lemma emit_loop_run (n i : nat) (f : Frame) :
  i + n <= length (preds f) ->
  for_n n i emit f
  = Returned (tt, with_results
                    (results f
                     ++ map (to_result (labels f)) (take n (drop i (preds f))))
                    f).
Proof.
  revert i f. induction n as [|n IH]; intros i f Hn; cbn.
  - go. now rewrite app_nil_r, with_results_id.
  - go. destruct (lookup_lt_is_Some_2 (preds f) i) as [p Ep]; [lia|].
    rewrite (emit_run _ _ p Ep). rewrite IH by (cbn; lia). cbn.
    rewrite with_results_twice, <- app_assoc. cbn.
    rewrite (drop_S _ _ _ Ep). reflexivity.
Qed.

Lemma load_run (f : Frame) :
  preds f = [] ->
  for_range 0 (predictions f) (fun i v => append_preds (mkPred i v)) f
  = Returned (tt, with_preds (indexed (predictions f)) f).
Proof.
  intros E. rewrite for_range_run, E. reflexivity.
Qed.

Lemma clamp_run (f : Frame) :
  (if (Z.of_nat (length (preds f)) <? k f)%Z
   then set_k (Z.of_nat (length (preds f)))
   else mret tt) f
  = Returned (tt, mkFrame (predictions f) (labels f)
                    (clamped (k f) (length (preds f))) (preds f) (results f)).
Proof.
  unfold clamped. destruct (_ <? _)%Z; [reflexivity|].
  destruct f; reflexivity.
Qed.

Lemma clamped_le (k0 : Z) (n : nat) : Z.to_nat (clamped k0 n) <= n.
Proof.
  unfold clamped. destruct (Z.of_nat n <? k0)%Z eqn:E; [lia|].
  apply Z.ltb_ge in E. lia.
Qed.

Lemma clamped_min (k0 : Z) (n : nat) :
  Z.to_nat (clamped k0 n) = Nat.min (Z.to_nat k0) n.
Proof.
  unfold clamped. destruct (Z.of_nat n <? k0)%Z eqn:E.
  - apply Z.ltb_lt in E. lia.
  - apply Z.ltb_ge in E. lia.
Qed.

(** What a call returns and the frame it ends in. *)
Lemma getTopK_run_eq (ps : list float32) (ls : list string) (k0 : Z) :
  let sorted := rank (indexed ps) in
  let k' := clamped k0 (length ps) in
  let rs := map (to_result ls) (take (Z.to_nat k') sorted) in
  getTopK_run ps ls k0 = Returned (rs, mkFrame ps ls k' sorted rs).
Proof.
  intros sorted k' rs.
  unfold getTopK_run, getTopK_body.
  unfold mbind at 1, M_bind, bind at 1, get at 1.
  unfold mbind at 1, M_bind, bind at 1.
  rewrite load_run by reflexivity.
  unfold mbind at 1, M_bind, bind at 1.
  rewrite sort_preds_run.
  unfold mbind at 1, M_bind, bind at 1, get at 1.
  unfold mbind at 1, M_bind, bind at 1.
  rewrite clamp_run.
  unfold mbind at 1, M_bind, bind at 1, get at 1.
  unfold mbind at 1, M_bind, bind at 1.
  unfold for_. rewrite Nat.sub_0_r.
  rewrite emit_loop_run.
  - unfold enter, with_preds, with_results.
    cbn [preds results labels k predictions].
    rewrite length_rank, length_indexed, drop_0. reflexivity.
  - unfold enter, with_preds; cbn [preds results labels k predictions].
    rewrite !length_rank, !length_indexed. cbn. apply clamped_le.
Qed.

Lemma getTopK_eq (ps : list float32) (ls : list string) (k0 : Z) :
  getTopK ps ls k0
  = Returned (map (to_result ls)
                (take (Z.to_nat (clamped k0 (length ps))) (rank (indexed ps)))).
Proof. unfold getTopK. now rewrite getTopK_run_eq. Qed.

(** **** The sort permutes [preds] *)
Lemma insert_perm_cons {A} (l : list A) (j : nat) (y a : A) :
  l !! j = Some y -> y :: <[j:=a]> l ≡ₚ a :: l.
Proof.
  revert j. induction l as [|b l IH]; intros [|j] E; cbn in *;
    try discriminate.
  - injection E as ->. apply perm_swap.
  - rewrite perm_swap, (IH j E). apply perm_swap.
Qed.

Lemma swap_perm {A} (l : list A) (i j : nat) (x y : A) :
  l !! i = Some x -> l !! j = Some y -> <[j:=x]> (<[i:=y]> l) ≡ₚ l.
Proof.
  revert i j. induction l as [|b l IH]; intros [|i] [|j] Ei Ej; cbn in *;
    try discriminate.
  - injection Ei as ->. reflexivity.
  - injection Ei as ->. now apply insert_perm_cons.
  - injection Ej as ->. now apply insert_perm_cons.
  - now rewrite (IH i j).
Qed.

Lemma swap_step_perm (i j : nat) (l : list pred) : swap_step i j l ≡ₚ l.
Proof.
  unfold swap_step. destruct (l !! j) as [pj|] eqn:Ej; [|reflexivity].
  destruct (l !! i) as [pi|] eqn:Ei; [|reflexivity].
  destruct (gtb _ _); [|reflexivity]. now apply swap_perm.
Qed.

Lemma inner_perm (n i j : nat) (l : list pred) : inner n i j l ≡ₚ l.
Proof.
  revert j l. induction n as [|n IH]; intros j l; cbn; [reflexivity|].
  now rewrite IH, swap_step_perm.
Qed.

Lemma outer_perm (n i : nat) (l : list pred) : outer n i l ≡ₚ l.
Proof.
  revert i l. induction n as [|n IH]; intros i l; cbn; [reflexivity|].
  now rewrite IH, inner_perm.
Qed.

Lemma rank_perm (l : list pred) : rank l ≡ₚ l.
Proof. apply outer_perm. Qed.

(** Every entry of the sorted [preds] pairs a class index with the
    confidence the input holds at that index. *)
Lemma rank_indexed_lookup (ps : list float32) (i : nat) (p : pred) :
  rank (indexed ps) !! i = Some p -> ps !! index p = Some (value p).
Proof.
  intros E. apply list_elem_of_lookup_2 in E.
  rewrite rank_perm in E. apply list_elem_of_lookup_1 in E as [j E].
  unfold indexed in E. apply list_lookup_imap_Some in E as (v & Ev & ->).
  exact Ev.
Qed.

(** **** The positions a sweep leaves alone *)
Lemma swap_step_lookup_other (i j p : nat) (l : list pred) :
  p <> i -> p <> j -> swap_step i j l !! p = l !! p.
Proof.
  intros Hi Hj. unfold swap_step.
  destruct (l !! j), (l !! i); try reflexivity.
  destruct (gtb _ _); [|reflexivity].
  now rewrite !list_lookup_insert_ne by congruence.
Qed.

Lemma inner_lookup_other (n i j p : nat) (l : list pred) :
  p <> i -> p < j -> inner n i j l !! p = l !! p.
Proof.
  revert j l. induction n as [|n IH]; intros j l Hi Hj; cbn; [reflexivity|].
  rewrite IH by lia. apply swap_step_lookup_other; lia.
Qed.

Lemma swap_step_suffix (i j q : nat) (l : list pred) (y : pred) :
  i <= j -> i <= q -> swap_step i j l !! q = Some y ->
  exists q', i <= q' /\ l !! q' = Some y.
Proof.
  intros Hij Hq. unfold swap_step.
  destruct (l !! j) as [pj|] eqn:Ej; [|eauto].
  destruct (l !! i) as [pi|] eqn:Ei; [|eauto].
  destruct (gtb _ _); [|eauto].
  intros E. apply list_lookup_insert_Some in E as [(-> & -> & _)|[_ E]].
  - eauto.
  - apply list_lookup_insert_Some in E as [(-> & -> & _)|[_ E]]; eauto.
Qed.

Lemma inner_suffix (n i j q : nat) (l : list pred) (y : pred) :
  i <= j -> i <= q -> inner n i j l !! q = Some y ->
  exists q', i <= q' /\ l !! q' = Some y.
Proof.
  revert j l. induction n as [|n IH]; intros j l Hij Hq E; cbn in E;
    [eauto|].
  apply IH in E as (q1 & Hq1 & E); [|lia..].
  now apply swap_step_suffix in E.
Qed.

(** **** The sort orders [preds] when no value is a NaN *)
Lemma no_nan_lookup (l : list pred) (i : nat) (p : pred) :
  no_nan l -> l !! i = Some p -> is_nan (value p) = false.
Proof. intros H E. exact (proj1 (Forall_lookup _ _) H i p E). Qed.

Lemma swap_step_leads (i j : nat) (l : list pred) :
  no_nan l -> i < j -> leads i j l -> leads i (S j) (swap_step i j l).
Proof.
  intros Hnan Hij Hl m x y Hm. unfold swap_step.
  destruct (l !! j) as [pj|] eqn:Ej.
  2:{ intros Ex Ey. destruct (decide (m = j)) as [->|]; [congruence|].
      apply (Hl m x y); [lia|assumption..]. }
  destruct (l !! i) as [pi|] eqn:Ei; [|congruence].
  destruct (gtb (value pj) (value pi)) eqn:G.
  - rewrite list_lookup_insert_ne by lia.
    rewrite list_lookup_insert_eq by (eapply lookup_lt_Some; eassumption).
    intros [= <-]. destruct (decide (m = j)) as [->|Hmj].
    + rewrite list_lookup_insert_eq
        by (rewrite length_insert; eapply lookup_lt_Some; eassumption).
      intros [= <-]. now apply gtb_leb.
    + rewrite !list_lookup_insert_ne by lia. intros Ey.
      apply leb_trans with (value pi); [|now apply gtb_leb].
      apply (Hl m pi y); [lia|assumption..].
  - intros Ex Ey. destruct (decide (m = j)) as [->|Hmj].
    + assert (x = pi) as -> by congruence.
      assert (y = pj) as -> by congruence.
      apply not_gtb_leb; [eapply no_nan_lookup; eassumption..|assumption].
    + apply (Hl m x y); [lia|assumption..].
Qed.

Lemma no_nan_perm (l l' : list pred) : l ≡ₚ l' -> no_nan l' -> no_nan l.
Proof. intros H. unfold no_nan. now rewrite H. Qed.

Lemma inner_leads (n i j : nat) (l : list pred) :
  no_nan l -> i < j -> leads i j l -> leads i (j + n) (inner n i j l).
Proof.
  revert j l. induction n as [|n IH]; intros j l Hnan Hij Hl; cbn.
  - now rewrite Nat.add_0_r.
  - replace (j + S n) with (S j + n) by lia. apply IH; [|lia|].
    + eapply no_nan_perm; [apply swap_step_perm|assumption].
    + now apply swap_step_leads.
Qed.

Lemma inner_settled (i : nat) (l : list pred) :
  no_nan l -> settled i l ->
  settled (S i) (inner (length l - (i + 1)) i (i + 1) l).
Proof.
  intros Hnan Hs p q x y Hp Hpq Ex Ey.
  destruct (decide (p = i)) as [->|Hpi].
  - assert (Hq : q < length l).
    { rewrite <- (length_inner (length l - (i + 1)) i (i + 1)).
      eapply lookup_lt_Some; eassumption. }
    eapply (inner_leads _ i (i + 1) l Hnan);
      [lia| |split; [exact Hpq|]|eassumption..].
    + intros m ? ? Hm. lia.
    + lia.
  - rewrite inner_lookup_other in Ex by lia.
    destruct (decide (q < i)) as [Hqi|Hqi].
    + rewrite inner_lookup_other in Ey by lia.
      apply (Hs p q x y); auto; lia.
    + apply inner_suffix in Ey as (q' & Hq' & Ey); [|lia..].
      apply (Hs p q' x y); auto; lia.
Qed.

Lemma outer_settled (n i : nat) (l : list pred) :
  no_nan l -> settled i l -> settled (i + n) (outer n i l).
Proof.
  revert i l. induction n as [|n IH]; intros i l Hnan Hs; cbn.
  - now rewrite Nat.add_0_r.
  - replace (i + S n) with (S i + n) by lia. apply IH.
    + eapply no_nan_perm; [apply inner_perm|assumption].
    + now apply inner_settled.
Qed.

(** The sorted [preds] are in descending order of value: no later entry
    exceeds an earlier one. *)
Lemma rank_descending (l : list pred) (p q : nat) (x y : pred) :
  no_nan l -> p < q -> rank l !! p = Some x -> rank l !! q = Some y ->
  leb (value y) (value x) = true.
Proof.
  intros Hnan Hpq Ex Ey.
  assert (Hq : q < length l).
  { rewrite <- length_rank. eapply lookup_lt_Some; eassumption. }
  assert (Hs : settled (0 + (length l - 1)) (rank l)).
  { apply outer_settled; [assumption|]. intros ? ? ? ? ?. lia. }
  apply (Hs p q x y); auto; lia.
Qed.

(** **** A slice already in descending order is left as it is *)
Lemma swap_step_never_rises (i j : nat) (l : list pred) :
  i < j -> never_rises l -> swap_step i j l = l.
Proof.
  intros Hij H. unfold swap_step.
  destruct (l !! j) as [pj|] eqn:Ej; [|reflexivity].
  destruct (l !! i) as [pi|] eqn:Ei; [|reflexivity].
  now rewrite (H i j pi pj Hij Ei Ej).
Qed.

Lemma inner_never_rises (n i j : nat) (l : list pred) :
  i < j -> never_rises l -> inner n i j l = l.
Proof.
  revert j. induction n as [|n IH]; intros j Hij H; cbn; [reflexivity|].
  rewrite swap_step_never_rises by assumption. apply IH; [lia|assumption].
Qed.

Lemma outer_never_rises (n i : nat) (l : list pred) :
  never_rises l -> outer n i l = l.
Proof.
  revert i. induction n as [|n IH]; intros i H; cbn; [reflexivity|].
  rewrite inner_never_rises by (lia || assumption). now apply IH.
Qed.

Lemma rank_never_rises (l : list pred) : never_rises l -> rank l = l.
Proof. apply outer_never_rises. Qed.

(** **** What a call selects *)
Lemma selected_eq (ps : list float32) (ls : list string) (k0 : Z) :
  selected ps ls k0
  = Returned (take (Z.to_nat (clamped k0 (length ps))) (rank (indexed ps))).
Proof.
  unfold selected. rewrite getTopK_run_eq. cbn [preds].
  rewrite length_map, length_take, length_rank, length_indexed.
  rewrite Nat.min_l by apply clamped_le. reflexivity.
Qed.

Lemma selected_indices_eq (ps : list float32) (ls : list string) (k0 : Z) :
  selected_indices ps ls k0
  = Returned (map index
      (take (Z.to_nat (clamped k0 (length ps))) (rank (indexed ps)))).
Proof. unfold selected_indices. now rewrite selected_eq. Qed.

(** A call never panics: every index it uses is within bounds. *)
Lemma getTopK_never_panics (ps : list float32) (ls : list string) (k0 : Z) :
  exists rs, getTopK ps ls k0 = Returned rs.
Proof. eexists. apply getTopK_eq. Qed.

Lemma no_nan_indexed (ps : list float32) :
  Forall (fun v => is_nan v = false) ps -> no_nan (indexed ps).
Proof.
  intros H. apply Forall_lookup. intros i p E.
  apply list_lookup_imap_Some in E as (v & Ev & ->). cbn.
  exact (proj1 (Forall_lookup _ _) H i v Ev).
Qed.

Lemma sorted_desc_never_rises (ps : list float32) :
  sorted_desc ps -> never_rises (indexed ps).
Proof.
  intros H.
  assert (Htr : Transitive (fun x y : float32 => leb y x = true)).
  { intros x y z Hxy Hyz. exact (leb_trans _ _ _ Hyz Hxy). }
  apply Sorted_StronglySorted in H; [|exact Htr].
  assert (Hpair : forall p q x y, p < q -> ps !! p = Some x ->
                    ps !! q = Some y -> leb y x = true).
  { clear Htr. induction H as [|a l Hl IH Ha]; intros p q x y Hpq Ex Ey.
    - discriminate.
    - destruct q as [|q]; [lia|]. cbn in Ey. destruct p as [|p].
      + injection Ex as <-.
        exact (proj1 (Forall_lookup _ _) Ha q y Ey).
      + cbn in Ex. apply (IH p q); auto; lia. }
  intros p q x y Hpq Ex Ey.
  apply list_lookup_imap_Some in Ex as (vx & Ex & ->).
  apply list_lookup_imap_Some in Ey as (vy & Ey & ->). cbn.
  apply leb_not_gtb. eapply Hpair; eassumption.
Qed.

Lemma map_to_result_indexed (ps : list float32) (ls : list string) :
  map (to_result ls) (indexed ps)
  = imap (fun i v => mkResult (label_of ls i) v) ps.
Proof.
  apply list_eq. intros i. unfold indexed.
  rewrite list_lookup_fmap, !list_lookup_imap.
  now destruct (ps !! i).
Qed.

Lemma map_index_indexed (ps : list float32) :
  map index (indexed ps) = seq 0 (length ps).
Proof.
  apply list_eq. intros i. unfold indexed.
  rewrite list_lookup_fmap, list_lookup_imap.
  destruct (ps !! i) as [v|] eqn:E; cbn.
  - symmetry. apply lookup_seq. split; [reflexivity|].
    eapply lookup_lt_Some; eassumption.
  - symmetry. apply lookup_seq_ge. now apply lookup_ge_None.
Qed.

(** **** The claims about [getTopK] *)

(** C1, as amended.  For every probability vector without a NaN and every
    [k], the call returns; it selects [min(k, n)] of the [n] entries (none
    for a negative [k]), in non-increasing order of confidence; each
    selected entry pairs a class index with the confidence the input holds
    there, no entry left out exceeds a selected one, and the results are the
    selected entries with their labels.  Among entries of equal confidence
    the lower class index does not always come first: for [0.5, 0.5, 0.9]
    with [k = 3] the order is index 2, index 1, index 0. *)
Theorem C1_descending_and_tie_order (ps : list float32) (ls : list string)
  (k0 : Z) :
  Forall (fun v => is_nan v = false) ps ->
  (exists sel rest,
     selected ps ls k0 = Returned sel /\
     getTopK ps ls k0 = Returned (map (to_result ls) sel) /\
     length sel = Nat.min (Z.to_nat k0) (length ps) /\
     descending sel /\
     (forall i x, sel !! i = Some x -> ps !! index x = Some (value x)) /\
     sel ++ rest ≡ₚ indexed ps /\
     (forall x y, x ∈ sel -> y ∈ rest -> leb (value y) (value x) = true)) /\
  selected_indices tie_vector abc 3 = Returned [2; 1; 0].
Proof.
  intros Hnan. split; [|vm_compute; reflexivity].
  set (c := Z.to_nat (clamped k0 (length ps))).
  set (sorted := rank (indexed ps)).
  assert (Hn : no_nan (indexed ps)) by now apply no_nan_indexed.
  exists (take c sorted), (drop c sorted). repeat split.
  - apply selected_eq.
  - apply getTopK_eq.
  - unfold c, sorted.
    rewrite length_take, length_rank, length_indexed, clamped_min. lia.
  - intros a b x y Hab Ex Ey.
    apply lookup_take_Some in Ex as [Ex _].
    apply lookup_take_Some in Ey as [Ey _].
    eapply rank_descending; eassumption.
  - intros i x Ex. apply lookup_take_Some in Ex as [Ex _].
    eapply rank_indexed_lookup; eassumption.
  - rewrite take_drop. apply rank_perm.
  - intros x y Hx Hy.
    apply list_elem_of_lookup_1 in Hx as [a Ex].
    apply list_elem_of_lookup_1 in Hy as [b Ey].
    apply lookup_take_Some in Ex as [Ex Ha].
    rewrite lookup_drop in Ey.
    apply (rank_descending (indexed ps) a (c + b) x y); auto; lia.
Qed.

Lemma C1_descending_and_tie_order_witness :
  (exists sel rest,
     selected tie_vector abc 3 = Returned sel /\
     getTopK tie_vector abc 3 = Returned (map (to_result abc) sel) /\
     length sel = Nat.min (Z.to_nat 3) (length tie_vector) /\
     descending sel /\
     (forall i x, sel !! i = Some x ->
                  tie_vector !! index x = Some (value x)) /\
     sel ++ rest ≡ₚ indexed tie_vector /\
     (forall x y, x ∈ sel -> y ∈ rest -> leb (value y) (value x) = true)) /\
  selected_indices tie_vector abc 3 = Returned [2; 1; 0].
Proof.
  apply (C1_descending_and_tie_order tie_vector abc 3).
  repeat constructor.
Defined.

(** C1, as stated, fails on the specification's own scenario: for
    [0.5, 0.5, 0.9] with [k = 3] the call selects index 2, index 1, index 0,
    not index 2, index 0, index 1, and the selection is not in the stable
    order. *)
Lemma C1_tie_break_counterexample :
  selected_indices tie_vector abc 3 = Returned [2; 1; 0] /\
  selected_indices tie_vector abc 3 <> Returned [2; 0; 1] /\
  (forall sel, selected tie_vector abc 3 = Returned sel ->
               ~ stable_descending sel).
Proof.
  split; [vm_compute; reflexivity|]. split; [vm_compute; congruence|].
  intros sel E Hst. vm_compute in E. injection E as <-.
  destruct (Hst 1 2 _ _ ltac:(lia) eq_refl eq_refl) as [H|[_ H]].
  - vm_compute in H. discriminate.
  - cbn in H. lia.
Qed.

(** C6, as amended.  The result has exactly [min(K, n)] entries for a
    probability vector of [n] entries ([K] counting as 0 when negative),
    whatever the size of the vocabulary. *)
Theorem C6_length_min_k_vector (ps : list float32) (ls : list string)
  (k0 : Z) :
  exists rs, getTopK ps ls k0 = Returned rs /\
             length rs = Nat.min (Z.to_nat k0) (length ps).
Proof.
  eexists. split; [apply getTopK_eq|].
  rewrite length_map, length_take, length_rank, length_indexed.
  rewrite clamped_min. lia.
Qed.

(** C6, as stated, fails: with a vocabulary of two labels, a vector of three
    probabilities and [K = 5] the result has three entries, not
    [min(5, 2)]. *)
Lemma C6_length_counterexample :
  exists rs,
    getTopK [f32_ratio 1 10; f32_ratio 2 10; f32_ratio 7 10]
            ["a"; "b"]%string 5 = Returned rs /\
    length rs = 3 /\ length rs <> Nat.min 5 (length ["a"; "b"]%string).
Proof.
  eexists. split; [vm_compute; reflexivity|]. cbn. split; [reflexivity|lia].
Qed.

(** C7.  The call never panics and skips nothing: position by position, the
    result holds for each selected class index the confidence the input has
    at that index, with the vocabulary's label when there is one and
    ["unknown"] when the index is past the vocabulary.  With a vocabulary
    of two labels and three probabilities of which the last is the greatest,
    top-1 is labelled ["unknown"]. *)
Theorem C7_unknown_label (ps : list float32) (ls : list string) (k0 : Z) :
  (exists rs sel,
     getTopK ps ls k0 = Returned rs /\
     selected_indices ps ls k0 = Returned sel /\
     length rs = length sel /\
     length rs = Nat.min (Z.to_nat k0) (length ps) /\
     forall i idx, sel !! i = Some idx ->
       exists r, rs !! i = Some r /\
                 ps !! idx = Some (Confidence r) /\
                 (length ls <= idx -> Label r = "unknown"%string) /\
                 (forall s, ls !! idx = Some s -> Label r = s)) /\
  (forall p0 p1 p2 l0 l1,
     gtb p2 p0 = true -> gtb p2 p1 = true ->
     getTopK [p0; p1; p2] [l0; l1] 1 = Returned [mkResult "unknown" p2]).
Proof.
  split.
  - do 2 eexists. split; [apply getTopK_eq|].
    split; [apply selected_indices_eq|].
    split; [now rewrite !length_map|].
    split.
    { rewrite length_map, length_take, length_rank, length_indexed.
      rewrite clamped_min. lia. }
    intros i idx E. rewrite list_lookup_fmap in E.
    destruct (take _ _ !! i) as [p|] eqn:Ep; [|discriminate].
    injection E as <-. exists (to_result ls p).
    split; [now rewrite list_lookup_fmap, Ep|].
    apply lookup_take_Some in Ep as [Ep _]. cbn.
    split; [eapply rank_indexed_lookup; eassumption|].
    unfold label_of. split.
    + intros H. now rewrite lookup_ge_None_2.
    + intros s ->. reflexivity.
  - intros p0 p1 p2 l0 l1 H0 H1. rewrite getTopK_eq.
    cbn. unfold swap_step; cbn.
    destruct (gtb p1 p0) eqn:E; cbn; rewrite ?H0, ?H1; cbn; rewrite ?E; cbn;
      try reflexivity.
    destruct (gtb p0 p1); reflexivity.
Qed.

Lemma C7_unknown_label_witness :
  getTopK [f32_ratio 1 10; f32_ratio 2 10; f32_ratio 7 10]
          ["a"; "b"]%string 1
  = Returned [mkResult "unknown" (f32_ratio 7 10)].
Proof.
  apply (proj2 (C7_unknown_label [] [] 0)); vm_compute; reflexivity.
Defined.

(** C8.  For a probability vector already in descending order, the call
    with [k] the vector's length returns the entries in their original
    order: entry [i] of the result is class [i] with the confidence the
    input holds at [i]. *)
Theorem C8_sorted_input_keeps_order (ps : list float32) (ls : list string) :
  sorted_desc ps ->
  getTopK ps ls (Z.of_nat (length ps))
  = Returned (imap (fun i v => mkResult (label_of ls i) v) ps) /\
  selected_indices ps ls (Z.of_nat (length ps))
  = Returned (seq 0 (length ps)).
Proof.
  intros H. apply sorted_desc_never_rises, rank_never_rises in H.
  assert (Hc : Z.to_nat (clamped (Z.of_nat (length ps)) (length ps))
               = length ps).
  { rewrite clamped_min. lia. }
  assert (Ht : take (length ps) (indexed ps) = indexed ps).
  { apply take_ge. now rewrite length_indexed. }
  rewrite getTopK_eq, selected_indices_eq, Hc, H, Ht.
  now rewrite map_to_result_indexed, map_index_indexed.
Qed.

Lemma C8_sorted_input_keeps_order_witness :
  getTopK [f32_ratio 9 10; f32_ratio 5 10; f32_ratio 5 10] abc 3
  = Returned [mkResult "a" (f32_ratio 9 10); mkResult "b" (f32_ratio 5 10);
              mkResult "c" (f32_ratio 5 10)] /\
  selected_indices [f32_ratio 9 10; f32_ratio 5 10; f32_ratio 5 10] abc 3
  = Returned [0; 1; 2].
Proof.
  apply (C8_sorted_input_keeps_order
           [f32_ratio 9 10; f32_ratio 5 10; f32_ratio 5 10] abc).
  repeat constructor.
Defined.

(** C9.  A call leaves the caller's [predictions] slice and the vocabulary
    [labels] as they were: the frame it ends in holds both unchanged. *)
Theorem C9_inputs_unchanged (ps : list float32) (ls : list string) (k0 : Z) :
  exists rs f,
    getTopK_run ps ls k0 = Returned (rs, f) /\
    predictions f = ps /\ labels f = ls.
Proof.
  do 2 eexists. split; [apply getTopK_run_eq|]. split; reflexivity.
Qed.

(** C10.  For an empty probability vector, or for any [k] that is zero or
    negative, the call returns the empty sequence, for every vocabulary;
    it does not panic. *)
Theorem C10_empty_vector_or_nonpositive_k (ps : list float32)
  (ls : list string) (k0 : Z) :
  ps = [] \/ (k0 <= 0)%Z -> getTopK ps ls k0 = Returned [].
Proof.
  intros H. rewrite getTopK_eq.
  assert (Hc : Z.to_nat (clamped k0 (length ps)) = 0).
  { rewrite clamped_min. destruct H as [->|H]; cbn; lia. }
  now rewrite Hc.
Qed.

Lemma C10_empty_vector_or_nonpositive_k_witness :
  getTopK [] abc 5 = Returned [] /\
  getTopK tie_vector abc (-2) = Returned [].
Proof.
  split.
  - apply (C10_empty_vector_or_nonpositive_k [] abc 5). left. reflexivity.
  - apply (C10_empty_vector_or_nonpositive_k tie_vector abc (-2)). right. lia.
Defined.

End TopKFacts.

(** ** Proofs about [readImage] *)
Module DecodeFacts.
Import Go Decode.
Local Open Scope nat_scope.

Section Attempts.
Variables jpeg_Decode png_Decode : Decoder.

Lemma decode_keeps_source (d : Decoder) (r : Reader) :
  data (snd (decode d r)) = data r.
Proof. unfold decode. destruct (d (remaining r)). reflexivity. Qed.

Lemma decode_result (d : Decoder) (r : Reader) :
  fst (decode d r) = fst (d (remaining r)).
Proof. unfold decode. now destruct (d (remaining r)). Qed.

(** After lines 53-56 the reader is back at offset 0. *)
Lemma rewind_remaining (r : Reader) : remaining (rewind r) = data r.
Proof. destruct r as [d p]. reflexivity. Qed.

Lemma png_view_full (r : Reader) : png_view jpeg_Decode r = data r.
Proof.
  unfold png_view. rewrite rewind_remaining.
  apply decode_keeps_source.
Qed.

(** What [readImage] returns, by the two views. *)
Lemma readImage_by_views (r : Reader) :
  fst (readImage jpeg_Decode png_Decode r)
  = match fst (jpeg_Decode (jpeg_view r)) with
    | Some img => inl img
    | None =>
        match fst (png_Decode (png_view jpeg_Decode r)) with
        | Some img => inl img
        | None => inr unsupported
        end
    end.
Proof.
  unfold readImage, jpeg_view, png_view.
  rewrite <- (decode_result jpeg_Decode r).
  destruct (decode jpeg_Decode r) as [[img|] r1]; cbn [fst snd];
    [reflexivity|].
  rewrite <- (decode_result png_Decode (rewind r1)).
  destruct (decode png_Decode (rewind r1)) as [[img|] r3]; reflexivity.
Qed.

End Attempts.




End DecodeFacts.

(** ** Proofs about [preprocessImage] *)
Module PreprocessFacts.
Import Go Float32 Preprocess.
Local Open Scope nat_scope.

(** **** Lines 70-79 *)
Lemma pixel_step_app (resized : Image) (y x : nat) (acc : list float32) :
  pixel_step resized y x acc = acc ++ pixel resized y x.
Proof.
  unfold pixel_step, pixel.
  destruct (At resized (Z.of_nat x) (Z.of_nat y)) as [[[r g] b] a].
  now rewrite <- !app_assoc.
Qed.

Lemma length_pixel (resized : Image) (y x : nat) :
  length (pixel resized y x) = 3.
Proof.
  unfold pixel.
  now destruct (At resized (Z.of_nat x) (Z.of_nat y)) as [[[r g] b] a].
Qed.

Lemma collect_row (resized : Image) (y : nat) (xs : list nat)
  (acc : list float32) :
  foldl (fun imgData x => pixel_step resized y x imgData) acc xs
  = acc ++ flat_map (fun x => pixel resized y x) xs.
Proof.
  revert acc. induction xs as [|x xs IH]; intros acc; cbn.
  - now rewrite app_nil_r.
  - now rewrite IH, pixel_step_app, <- app_assoc.
Qed.

Lemma collect_rows (resized : Image) (w : nat) (ys : list nat)
  (acc : list float32) :
  foldl (fun imgData y =>
           foldl (fun imgData x => pixel_step resized y x imgData)
                 imgData (seq 0 w)) acc ys
  = acc ++ flat_map (row_data resized w) ys.
Proof.
  revert acc. induction ys as [|y ys IH]; intros acc; cbn.
  - now rewrite app_nil_r.
  - now rewrite IH, collect_row, <- app_assoc.
Qed.

Lemma collect_eq (resized : Image) (width height : Z) :
  collect resized width height
  = flat_map (row_data resized (Z.to_nat width)) (seq 0 (Z.to_nat height)).
Proof. unfold collect. now rewrite collect_rows. Qed.

(** **** Lines 84-95 *)
Lemma make_ok {A} (z : A) (n : Z) :
  (0 <= n)%Z -> make z n = Some (replicate (Z.to_nat n) z).
Proof.
  intros H. unfold make. destruct (n <? 0)%Z eqn:E; [|reflexivity].
  apply Z.ltb_lt in E. lia.
Qed.

Lemma store_ok {A} (l : list A) (i : nat) (x : A) :
  i < length l -> store l i x = Some (<[i:=x]> l).
Proof.
  intros H. unfold store.
  now destruct (lookup_lt_is_Some_2 l i H) as [y ->].
Qed.

Lemma slice_chunk (imgData px rest : list float32) (idx : nat) :
  drop idx imgData = px ++ rest ->
  length px = 3 ->
  slice imgData idx (idx + 3) = Some px /\ drop (idx + 3) imgData = rest.
Proof.
  intros Hd Hp.
  assert (Hl : idx + 3 <= length imgData).
  { assert (H := f_equal length Hd).
    rewrite length_drop, length_app in H. lia. }
  split.
  - unfold slice. rewrite decide_True by lia.
    replace (idx + 3 - idx) with 3 by lia.
    rewrite Hd, take_app_length' by congruence. reflexivity.
  - rewrite <- drop_drop, Hd.
    now rewrite drop_app_length' by congruence.
Qed.

Lemma copy_pixel (px : list float32) :
  length px = 3 -> copy (replicate 3 zero) px = px.
Proof.
  intros H. unfold copy. rewrite length_replicate, H. cbn.
  rewrite app_nil_r. apply take_ge. lia.
Qed.

Lemma pack_pixel_ok (imgData px rest : list float32) (y x idx : nat)
  (b0 : list (list (list float32))) (r : list (list float32)) :
  b0 !! y = Some r -> x < length r ->
  drop idx imgData = px ++ rest -> length px = 3 ->
  pack_pixel imgData y x (b0, idx) = Some (<[y:=<[x:=px]> r]> b0, idx + 3)
  /\ drop (idx + 3) imgData = rest.
Proof.
  intros Hy Hx Hd Hp.
  destruct (slice_chunk _ _ _ _ Hd Hp) as [Hs Hr].
  split; [|exact Hr].
  unfold pack_pixel. rewrite make_ok by lia. cbn.
  rewrite Hs. cbn. rewrite copy_pixel by assumption.
  rewrite Hy. cbn. rewrite store_ok by assumption. cbn.
  rewrite store_ok by (eapply lookup_lt_Some; eassumption). reflexivity.
Qed.

Lemma pack_pixels_ok (resized : Image) (imgData : list float32) (y : nat) :
  forall (n x idx : nat) (b0 : list (list (list float32)))
         (r : list (list float32)) (rest : list float32),
    b0 !! y = Some r -> x + n <= length r ->
    drop idx imgData
    = flat_map (fun x => pixel resized y x) (seq x n) ++ rest ->
    exists idx',
      for_opt n x (pack_pixel imgData y) (b0, idx)
      = Some (<[y:=take x r ++ map (fun x => pixel resized y x) (seq x n)
                    ++ drop (x + n) r]> b0, idx')
      /\ drop idx' imgData = rest.
Proof.
  induction n as [|n IH]; intros x idx b0 r rest Hy Hx Hd; cbn [for_opt].
  - exists idx. split; [|exact Hd]. cbn.
    rewrite Nat.add_0_r, take_drop. now rewrite list_insert_id.
  - cbn [seq flat_map] in Hd. rewrite <- app_assoc in Hd.
    destruct (pack_pixel_ok imgData _ _ y x idx b0 r Hy ltac:(lia) Hd
                (length_pixel resized y x)) as [Hstep Hd'].
    rewrite Hstep. cbn.
    assert (Hyl : y < length b0) by (eapply lookup_lt_Some; eassumption).
    destruct (IH (S x) (idx + 3) (<[y:=<[x:=pixel resized y x]> r]> b0)
                (<[x:=pixel resized y x]> r) rest) as (idx' & Hrun & Hrest).
    + now apply list_lookup_insert_eq.
    + rewrite length_insert. lia.
    + exact Hd'.
    + exists idx'. split; [|exact Hrest].
      rewrite Hrun. rewrite list_insert_insert_eq. do 3 f_equal.
      rewrite take_S_r with (x := pixel resized y x)
        by (apply list_lookup_insert_eq; lia).
      rewrite take_insert_ge by lia.
      rewrite drop_insert_lt by lia.
      rewrite <- app_assoc. cbn.
      replace (x + S n) with (S x + n) by lia. reflexivity.
Qed.

Lemma pack_row_ok (resized : Image) (imgData : list float32) (width : Z)
  (y idx : nat) (b0 : list (list (list float32))) (rest : list float32) :
  (0 <= width)%Z -> y < length b0 ->
  drop idx imgData = row_data resized (Z.to_nat width) y ++ rest ->
  exists idx',
    pack_row imgData width y (b0, idx)
    = Some (<[y:=row resized (Z.to_nat width) y]> b0, idx')
    /\ drop idx' imgData = rest.
Proof.
  intros Hw Hy Hd. unfold pack_row. rewrite make_ok by assumption. cbn.
  rewrite store_ok by assumption. cbn.
  set (w := Z.to_nat width) in *.
  destruct (pack_pixels_ok resized imgData y w 0 idx
              (<[y:=replicate w []]> b0) (replicate w []) rest)
    as (idx' & Hrun & Hrest).
  - now apply list_lookup_insert_eq.
  - rewrite length_replicate. lia.
  - exact Hd.
  - exists idx'. split; [|exact Hrest]. rewrite Hrun.
    rewrite list_insert_insert_eq. do 3 f_equal. cbn.
    rewrite drop_ge by (rewrite length_replicate; lia).
    now rewrite app_nil_r.
Qed.

Lemma pack_rows_ok (resized : Image) (imgData : list float32) (width : Z) :
  forall (n y idx : nat) (b0 : list (list (list float32)))
         (rest : list float32),
    (0 <= width)%Z -> y + n <= length b0 ->
    drop idx imgData
    = flat_map (row_data resized (Z.to_nat width)) (seq y n) ++ rest ->
    exists idx',
      for_opt n y (pack_row imgData width) (b0, idx)
      = Some (take y b0 ++ map (row resized (Z.to_nat width)) (seq y n)
                ++ drop (y + n) b0, idx')
      /\ drop idx' imgData = rest.
Proof.
  induction n as [|n IH]; intros y idx b0 rest Hw Hy Hd; cbn [for_opt].
  - exists idx. split; [|exact Hd]. cbn.
    now rewrite Nat.add_0_r, take_drop.
  - cbn [seq flat_map] in Hd. rewrite <- app_assoc in Hd.
    destruct (pack_row_ok resized imgData width y idx b0 _ Hw ltac:(lia) Hd)
      as (idx1 & Hstep & Hd').
    rewrite Hstep. cbn.
    destruct (IH (S y) idx1 (<[y:=row resized (Z.to_nat width) y]> b0) rest)
      as (idx' & Hrun & Hrest);
      [assumption|rewrite length_insert; lia|exact Hd'|].
    exists idx'. split; [|exact Hrest]. rewrite Hrun. do 2 f_equal.
    rewrite take_S_r with (x := row resized (Z.to_nat width) y)
      by (apply list_lookup_insert_eq; lia).
    rewrite take_insert_ge by lia.
    rewrite drop_insert_lt by lia.
    rewrite <- app_assoc. cbn.
    replace (y + S n) with (S y + n) by lia. reflexivity.
Qed.

(** The batch built from the collected samples is the layout
    [1, H, W, 3]. *)
Lemma pack_collect (resized : Image) :
  (0 <= Dx (Bounds resized))%Z -> (0 <= Dy (Bounds resized))%Z ->
  pack (Dy (Bounds resized)) (Dx (Bounds resized))
       (collect resized (Dx (Bounds resized)) (Dy (Bounds resized)))
  = Some (layout resized).
Proof.
  intros Hw Hh.
  set (w := Dx (Bounds resized)) in *. set (h := Dy (Bounds resized)) in *.
  destruct (pack_rows_ok resized (collect resized w h) w (Z.to_nat h) 0 0
              (replicate (Z.to_nat h) []) []) as (idx' & Hrun & _).
  - assumption.
  - rewrite length_replicate. lia.
  - rewrite drop_0, app_nil_r. apply collect_eq.
  - unfold pack.
    change (make [] 1) with (Some [@nil (list (list float32))]).
    cbn [mbind option_bind]. rewrite (make_ok [] h) by assumption.
    cbn [mbind option_bind store lookup list_lookup].
    rewrite Hrun. cbn.
    rewrite drop_ge by (rewrite length_replicate; lia).
    rewrite app_nil_r. reflexivity.
Qed.

(** **** The whole function *)
Lemma preprocessImage_run {Tensor} (env : Env Tensor) (img : Image) :
  let resized :=
    resize_Resize env (uint inputWidth) (uint inputHeight) img Lanczos3 in
  (0 <= Dx (Bounds resized))%Z -> (0 <= Dy (Bounds resized))%Z ->
  run env (preprocessImage img)
  = match tf_NewTensor env (IntArray [1%Z]) with
    | inr err => Returned (inr err)
    | inl _ => Returned (tf_NewTensor env (Float32Slice4 (layout resized)))
    end.
Proof.
  intros resized Hw Hh. unfold preprocessImage. cbn [run]. fold resized.
  destruct (tf_NewTensor env (IntArray [1%Z])) as [t|e]; [|reflexivity].
  rewrite pack_collect by assumption. cbn [run].
  now destruct (tf_NewTensor env (Float32Slice4 (layout resized))).
Qed.

Lemma layout_shape (resized : Image) :
  has_shape (layout resized) 1
    (Z.to_nat (Dy (Bounds resized))) (Z.to_nat (Dx (Bounds resized))) 3.
Proof.
  unfold has_shape, layout. split; [reflexivity|].
  constructor; [|constructor].
  split; [now rewrite length_map, length_seq|].
  apply Forall_forall. intros r Hr.
  apply list_elem_of_fmap in Hr as (y & -> & _).
  split; [now rewrite length_map, length_seq|].
  apply Forall_forall. intros px Hpx.
  apply list_elem_of_fmap in Hpx as (x & -> & _).
  apply length_pixel.
Qed.

(** **** Normalized samples *)
Lemma all_from_spec (P : Z -> bool) (n : nat) (c0 c : Z) :
  all_from n c0 P = true -> (c0 <= c < c0 + Z.of_nat n)%Z -> P c = true.
Proof.
  revert c0. induction n as [|n IH]; intros c0 H Hc; [lia|].
  cbn [all_from] in H. apply andb_prop in H as [H0 H1].
  destruct (decide (c = c0)) as [->|Hne]; [assumption|].
  apply (IH (c0 + 1)%Z); [assumption|lia].
Qed.

Lemma normalize_all_16 :
  all_from (Z.to_nat 65536) 0 (fun c => in_unit (normalize c)) = true.
Proof. vm_compute. reflexivity. Qed.

Lemma normalize_all_8 :
  all_from 256 0
    (fun v => (widen8 v =? 257 * v)%Z
              && eqb (normalize (widen8 v)) (div (of_Z v) (of_Z 255)))
  = true.
Proof. vm_compute. reflexivity. Qed.

(** Every 16-bit sample is normalized into the closed unit interval. *)
Lemma normalize_in_unit (c : Z) :
  sample_ok c -> in_unit (normalize c) = true.
Proof.
  intros H.
  apply (all_from_spec (fun c => in_unit (normalize c)) _ 0%Z c
           normalize_all_16).
  unfold sample_ok in H. lia.
Qed.

(** An 8-bit sample reaches the division widened to 16 bits, and the
    quotient is the sample divided by 255. *)
Lemma normalize_widen8 (v : Z) :
  (0 <= v <= 255)%Z ->
  sample_ok (widen8 v) /\
  eqb (normalize (widen8 v)) (div (of_Z v) (of_Z 255)) = true.
Proof.
  intros H.
  assert (H8 := all_from_spec _ _ 0%Z v normalize_all_8 ltac:(lia)).
  cbn beta in H8. apply andb_prop in H8 as [Hw He].
  apply Z.eqb_eq in Hw. split; [|exact He].
  unfold sample_ok. lia.
Qed.

Lemma layout_in_unit (resized : Image) :
  valid_samples resized ->
  all_values (fun v => in_unit v = true) (layout resized).
Proof.
  intros Hv. unfold all_values, layout.
  constructor; [|constructor].
  apply Forall_forall. intros r Hr.
  apply list_elem_of_fmap in Hr as (y & -> & _).
  apply Forall_forall. intros px Hpx.
  apply list_elem_of_fmap in Hpx as (x & -> & _).
  unfold pixel. specialize (Hv (Z.of_nat x) (Z.of_nat y)).
  destruct (At resized (Z.of_nat x) (Z.of_nat y)) as [[[r g] b] a].
  destruct Hv as (Hr & Hg & Hb).
  repeat constructor; now apply normalize_in_unit.
Qed.

Lemma toy_env_contract : resize_contract toy_env.
Proof.
  intros w h img interp Hw Hh Hx Hy. cbn. unfold toy_resize.
  destruct (Dx (Bounds img) <=? 0)%Z eqn:Ex; [apply Z.leb_le in Ex; lia|].
  destruct (Dy (Bounds img) <=? 0)%Z eqn:Ey; [apply Z.leb_le in Ey; lia|].
  cbn. unfold Dx, Dy. cbn. lia.
Qed.

(** **** The claims about [preprocessImage] *)

Lemma probe_refusing_env_contract : resize_contract probe_refusing_env.
Proof. exact toy_env_contract. Qed.

(** C2, as amended.  For every decoded image of positive width and height,
    1 x 1 or very large, and a resampler that returns the size it is asked
    for: the batch built from the resampled image has exactly the shape
    [1, H, W, 3], with [H] and [W] the configured target height and width,
    rectangular at every level; whenever [tf.NewTensor] accepts the probe
    value of line 80 and that batch, the call returns the tensor made of
    the batch; a tensor it returns is always that one; an error it returns
    is one [tf.NewTensor] gave for the probe or for the batch; and it does
    not panic. *)
Theorem C2_tensor_shape {Tensor} (env : Env Tensor) (img : Image) :
  resize_contract env ->
  (0 < Dx (Bounds img))%Z -> (0 < Dy (Bounds img))%Z ->
  let resized :=
    resize_Resize env (uint inputWidth) (uint inputHeight) img Lanczos3 in
  has_shape (layout resized) 1 (Z.to_nat inputHeight) (Z.to_nat inputWidth) 3
  /\
  (forall t0 t,
     tf_NewTensor env (IntArray [1%Z]) = inl t0 ->
     tf_NewTensor env (Float32Slice4 (layout resized)) = inl t ->
     run env (preprocessImage img) = Returned (inl t)) /\
  (forall t,
     run env (preprocessImage img) = Returned (inl t) ->
     (exists t0, tf_NewTensor env (IntArray [1%Z]) = inl t0) /\
     tf_NewTensor env (Float32Slice4 (layout resized)) = inl t) /\
  (forall e,
     run env (preprocessImage img) = Returned (inr e) ->
     tf_NewTensor env (IntArray [1%Z]) = inr e \/
     tf_NewTensor env (Float32Slice4 (layout resized)) = inr e) /\
  run env (preprocessImage img) <> Panic.
Proof.
  intros Hc Hx Hy resized.
  destruct (Hc (uint inputWidth) (uint inputHeight) img Lanczos3)
    as [Hw Hh]; [reflexivity|reflexivity|assumption|assumption|].
  fold resized in Hw, Hh.
  assert (Hrun := preprocessImage_run env img). cbv zeta in Hrun.
  fold resized in Hrun. rewrite Hw, Hh in Hrun.
  specialize (Hrun ltac:(discriminate) ltac:(discriminate)).
  split.
  { assert (Hs := layout_shape resized). rewrite Hw, Hh in Hs. exact Hs. }
  rewrite Hrun.
  destruct (tf_NewTensor env (IntArray [1%Z])) as [t0|e0].
  - repeat split.
    + intros _ t _ Ht. now rewrite Ht.
    + eauto.
    + congruence.
    + intros e He. right. congruence.
    + destruct (tf_NewTensor env (Float32Slice4 (layout resized)));
        discriminate.
  - repeat split; try discriminate.
    intros e [= <-]. now left.
Qed.

Lemma C2_tensor_shape_witness :
  run toy_env (preprocessImage one_pixel)
  = Returned
      (inl (Float32Slice4
              (layout (resize_Resize toy_env (uint inputWidth)
                         (uint inputHeight) one_pixel Lanczos3)))).
Proof.
  apply (proj1 (proj2 (C2_tensor_shape toy_env one_pixel toy_env_contract
                         eq_refl eq_refl)) (IntArray [1%Z]));
    reflexivity.
Defined.

(** C2, as stated, fails when [tf.NewTensor] refuses the probe value of
    line 80: for an image of one pixel and a resampler that returns the
    size asked for, the call returns the error and no tensor at all. *)
Lemma C2_probe_refused_counterexample :
  resize_contract probe_refusing_env /\
  (0 < Dx (Bounds one_pixel))%Z /\ (0 < Dy (Bounds one_pixel))%Z /\
  run probe_refusing_env (preprocessImage one_pixel)
  = Returned (inr "unsupported type int"%string) /\
  (forall t, run probe_refusing_env (preprocessImage one_pixel)
             <> Returned (inl t)).
Proof.
  assert (H : run probe_refusing_env (preprocessImage one_pixel)
              = Returned (inr "unsupported type int"%string))
    by reflexivity.
  split; [exact probe_refusing_env_contract|].
  split; [reflexivity|]. split; [reflexivity|]. split; [exact H|].
  intros t. rewrite H. discriminate.
Qed.

(** C3.  When the resampled image obeys the colour contract (16-bit samples,
    as 8-bit and 16-bit images give them), every value of the batch the
    tensor is built from lies in the closed interval from 0 to 1: each is
    a red, green or blue sample divided by 65535, the largest 16-bit value;
    an 8-bit sample arrives widened to 16 bits and its quotient is the
    sample divided by 255. *)
Theorem C3_values_in_unit_interval {Tensor} (env : Env Tensor) (img : Image) :
  let resized :=
    resize_Resize env (uint inputWidth) (uint inputHeight) img Lanczos3 in
  valid_samples resized ->
  (0 <= Dx (Bounds resized))%Z -> (0 <= Dy (Bounds resized))%Z ->
  run env (preprocessImage img)
  = match tf_NewTensor env (IntArray [1%Z]) with
    | inr err => Returned (inr err)
    | inl _ => Returned (tf_NewTensor env (Float32Slice4 (layout resized)))
    end /\
  all_values (fun v => in_unit v = true) (layout resized) /\
  (forall c, sample_ok c -> in_unit (normalize c) = true) /\
  (forall v, (0 <= v <= 255)%Z ->
     sample_ok (widen8 v) /\
     eqb (normalize (widen8 v)) (div (of_Z v) (of_Z 255)) = true).
Proof.
  intros resized Hv Hw Hh. split; [now apply preprocessImage_run|].
  split; [now apply layout_in_unit|].
  split; [exact normalize_in_unit|exact normalize_widen8].
Qed.

Lemma C3_values_in_unit_interval_witness :
  let resized :=
    resize_Resize toy_env (uint inputWidth) (uint inputHeight) one_pixel
      Lanczos3 in
  run toy_env (preprocessImage one_pixel)
  = match tf_NewTensor toy_env (IntArray [1%Z]) with
    | inr err => Returned (inr err)
    | inl _ => Returned (tf_NewTensor toy_env (Float32Slice4 (layout resized)))
    end /\
  all_values (fun v => in_unit v = true) (layout resized) /\
  (forall c, sample_ok c -> in_unit (normalize c) = true) /\
  (forall v, (0 <= v <= 255)%Z ->
     sample_ok (widen8 v) /\
     eqb (normalize (widen8 v)) (div (of_Z v) (of_Z 255)) = true).
Proof.
  apply (C3_values_in_unit_interval toy_env one_pixel).
  - intros x y. vm_compute. repeat split; discriminate.
  - discriminate.
  - discriminate.
Defined.

(** C5, as amended.  [preprocessImage] checks no size: on every decoded
    image, one of zero width or height included, the first thing it does is
    to call the resampler on that image, for the configured target width
    and height and with the Lanczos3 filter; it rejects nothing by itself,
    and an error it returns is one that [tf.NewTensor] reported. *)
Theorem C5_no_size_check {Tensor} (img : Image) :
  resamples_first inputWidth inputHeight Lanczos3 img
    (preprocessImage (Tensor := Tensor) img) /\
  (forall e, ~ rejects_with e (preprocessImage (Tensor := Tensor) img)) /\
  (forall (env : Env Tensor) e,
     run env (preprocessImage img) = Returned (inr e) ->
     tf_NewTensor env (IntArray [1%Z]) = inr e \/
     exists b, tf_NewTensor env (Float32Slice4 b) = inr e).
Proof.
  split; [repeat split|]. split; [intros e H; exact H|].
  intros env e. unfold preprocessImage. cbn [run].
  destruct (tf_NewTensor env (IntArray [1%Z])) as [t|e0].
  - destruct (pack _ _ _) as [b|]; cbn [run]; [|discriminate].
    destruct (tf_NewTensor env (Float32Slice4 b)) as [t'|e'] eqn:E;
      cbn [run]; [discriminate|].
    intros [= <-]. right. now exists b.
  - cbn [run]. intros [= <-]. now left.
Qed.

Lemma C5_no_size_check_witness :
  tf_NewTensor refusing_env (IntArray [1%Z]) = inr "unsupported type"%string \/
  exists b,
    tf_NewTensor refusing_env (Float32Slice4 b) = inr "unsupported type"%string.
Proof.
  apply (proj2 (proj2 (C5_no_size_check (Tensor := GoValue) no_pixel))).
  reflexivity.
Defined.

(** C5, as stated, fails: on the image of no pixels the call goes straight
    to the resampler, asking for 224 by 224 with Lanczos3, it does not end
    in an InvalidImage error, and with a resampler that hands an empty
    image back it returns a tensor of no rows. *)
Lemma C5_zero_size_counterexample :
  Dx (Bounds no_pixel) = 0%Z /\ Dy (Bounds no_pixel) = 0%Z /\
  resamples_first 224 224 Lanczos3 no_pixel
    (preprocessImage (Tensor := GoValue) no_pixel) /\
  ~ rejects_with "InvalidImage"%string
      (preprocessImage (Tensor := GoValue) no_pixel) /\
  run toy_env (preprocessImage no_pixel)
  = Returned (inl (Float32Slice4 [[]])).
Proof.
  repeat split; try reflexivity. intros H. exact H.
Qed.

End PreprocessFacts.

(** ** Proofs about [loadLabels] *)
Module LabelsFacts.
Import Stdlib.Strings.Ascii.
Import Go Labels.
Local Open Scope nat_scope.
Local Open Scope string_scope.
Local Arguments String.append !_ _ /.

Lemma append_nil_r (s : string) : s ++ "" = s.
Proof. induction s as [|c s IH]; simpl; [reflexivity|now f_equal]. Qed.

Lemma append_assoc (a b c : string) : (a ++ b) ++ c = a ++ (b ++ c).
Proof. induction a as [|x a IH]; simpl; [reflexivity|now f_equal]. Qed.

(** **** Splitting at newlines *)
Lemma Split_nl_not_nil (s : string) : Split_nl s <> [].
Proof.
  induction s as [|c s IH]; cbn; [discriminate|].
  destruct (is_nl c); [discriminate|]. now destruct (Split_nl s).
Qed.

Lemma Split_nl_app (a b : string) :
  Split_nl (a ++ String "010"%char b) = (Split_nl a ++ Split_nl b)%list.
Proof.
  induction a as [|c a IH]; cbn; [reflexivity|].
  destruct (is_nl c); [now rewrite IH|].
  rewrite IH. destruct (Split_nl a) as [|l ls] eqn:E; [|reflexivity].
  now apply Split_nl_not_nil in E.
Qed.

Lemma Split_nl_one (s : string) : no_nl s = true -> Split_nl s = [s].
Proof.
  induction s as [|c s IH]; cbn; [reflexivity|].
  intros H. apply andb_prop in H as [Hc Hs].
  apply negb_true_iff in Hc. now rewrite Hc, IH.
Qed.

Lemma length_Split_nl (s : string) : length (Split_nl s) = S (count_nl s).
Proof.
  induction s as [|c s IH]; cbn; [reflexivity|].
  destruct (is_nl c); cbn; [now rewrite IH|].
  destruct (Split_nl s) as [|l ls] eqn:E; [now apply Split_nl_not_nil in E|].
  cbn in *. lia.
Qed.

(** **** White space *)
Lemma asciiSpace_is_ascii (c : ascii) :
  asciiSpace c = true -> is_ascii c = true.
Proof.
  destruct c as [b0 b1 b2 b3 b4 b5 b6 [|]]; [|reflexivity].
  destruct b0, b1, b2, b3, b4, b5, b6; discriminate.
Qed.

Lemma drop_right_spaces_padding (a : string) :
  padding a = true -> drop_right_spaces a = "".
Proof.
  induction a as [|c a IH]; cbn; [reflexivity|].
  intros H. apply andb_prop in H as [H Ha]. apply andb_prop in H as [Hc _].
  now rewrite (IH Ha), Hc.
Qed.

Lemma drop_right_spaces_app (l a : string) :
  padding a = true -> drop_right_spaces (l ++ a) = drop_right_spaces l.
Proof.
  intros Ha. induction l as [|c l IH]; cbn.
  - now apply drop_right_spaces_padding.
  - now rewrite IH.
Qed.

Lemma drop_right_spaces_id (l : string) (d : ascii) :
  last_byte l = Some d -> asciiSpace d = false -> drop_right_spaces l = l.
Proof.
  induction l as [|c l IH]; cbn; [discriminate|].
  destruct l as [|c' l'].
  - intros [= ->] Hd. cbn. now rewrite Hd.
  - intros Hl Hd. rewrite (IH Hl Hd). reflexivity.
Qed.

Section Trim.
Variables TrimFunc_IsSpace TrimRightFunc_IsSpace : string -> string.
Local Abbreviation TrimSpace :=
  (TrimSpace TrimFunc_IsSpace TrimRightFunc_IsSpace).
Local Abbreviation keep := (keep TrimFunc_IsSpace TrimRightFunc_IsSpace).
Local Abbreviation parse :=
  (parse TrimFunc_IsSpace TrimRightFunc_IsSpace).

Lemma TrimSpace_padding (ws s : string) :
  padding ws = true -> TrimSpace (ws ++ s) = TrimSpace s.
Proof.
  induction ws as [|c ws IH]; cbn [append padding]; [reflexivity|].
  intros H. apply andb_prop in H as [H Hws]. apply andb_prop in H as [Hc _].
  cbn [Labels.TrimSpace].
  now rewrite (asciiSpace_is_ascii c Hc), Hc, IH.
Qed.

Lemma TrimSpace_blank (ws : string) : padding ws = true -> TrimSpace ws = "".
Proof.
  intros H. rewrite <- (append_nil_r ws). now rewrite TrimSpace_padding.
Qed.

Lemma TrimSpace_clean (l a : string) :
  clean l = true -> padding a = true -> TrimSpace (l ++ a) = l.
Proof.
  intros Hl Ha. destruct l as [|c l']; [discriminate|].
  unfold clean in Hl. apply andb_prop in Hl as [Hl Hlast].
  apply andb_prop in Hl as [Hc _].
  destruct (last_byte (String c l')) as [d|] eqn:Ed; [|discriminate].
  unfold edge_ok in Hc, Hlast.
  apply andb_prop in Hc as [Hc1 Hc2]. apply negb_true_iff in Hc2.
  apply andb_prop in Hlast as [Hd1 Hd2]. apply negb_true_iff in Hd2.
  change (String c l' ++ a) with (String c (l' ++ a)).
  cbn [Labels.TrimSpace]. rewrite Hc1, Hc2. cbn [negb].
  unfold trim_right.
  change (String c (l' ++ a)) with (String c l' ++ a).
  rewrite drop_right_spaces_app by assumption.
  rewrite (drop_right_spaces_id _ d Ed Hd2), Ed, Hd1. reflexivity.
Qed.

(** What one line contributes. *)
Lemma TrimSpace_line (l : Line) :
  line_ok l = true ->
  keep [] (line_text l) = line_labels l.
Proof.
  destruct l as [ws|b l a]; cbn [line_ok line_text line_labels]; intros H.
  - unfold Labels.keep. now rewrite TrimSpace_blank.
  - apply andb_prop in H as [H Ha]. apply andb_prop in H as [Hb Hl].
    unfold Labels.keep.
    rewrite TrimSpace_padding, TrimSpace_clean by assumption.
    destruct l; [discriminate|reflexivity].
Qed.

(** **** The loop *)
Lemma foldl_keep (acc : list string) (lines : list string) :
  foldl keep acc lines = (acc ++ flat_map (keep []) lines)%list.
Proof.
  revert acc. induction lines as [|l lines IH]; intros acc;
    cbn [foldl flat_map].
  - now rewrite app_nil_r.
  - rewrite IH, app_assoc. f_equal. unfold Labels.keep.
    destruct (String.eqb _ _); [now rewrite app_nil_r|reflexivity].
Qed.

Lemma parse_eq (content : string) :
  parse content = flat_map (keep []) (Split_nl content).
Proof. unfold Labels.parse. now rewrite foldl_keep. Qed.

Lemma keep_nonempty (line : string) : Forall (fun l => l <> "") (keep [] line).
Proof.
  unfold Labels.keep. destruct (String.eqb_spec (TrimSpace line) "").
  - constructor.
  - now repeat constructor.
Qed.

Lemma length_keep (line : string) : length (keep [] line) <= 1.
Proof. unfold Labels.keep. destruct (String.eqb _ _); cbn; lia. Qed.

Lemma no_nl_padding (ws : string) : padding ws = true -> no_nl ws = true.
Proof.
  induction ws as [|c ws IH]; cbn; [reflexivity|].
  intros H. apply andb_prop in H as [H Hws]. apply andb_prop in H as [_ Hc].
  now rewrite Hc, IH.
Qed.

Lemma no_nl_app (a b : string) :
  no_nl a = true -> no_nl b = true -> no_nl (a ++ b) = true.
Proof.
  induction a as [|c a IH]; cbn; [auto|].
  intros H Hb. apply andb_prop in H as [Hc Ha]. now rewrite Hc, IH.
Qed.

Lemma no_nl_line (l : Line) : line_ok l = true -> no_nl (line_text l) = true.
Proof.
  destruct l as [ws|b l a]; cbn [line_ok line_text]; intros H.
  - now apply no_nl_padding.
  - apply andb_prop in H as [H Ha]. apply andb_prop in H as [Hb Hl].
    apply no_nl_app; [now apply no_nl_padding|].
    apply no_nl_app; [|now apply no_nl_padding].
    destruct l as [|c l]; [discriminate|].
    unfold clean in Hl. apply andb_prop in Hl as [Hl _].
    now apply andb_prop in Hl as [_ Hl].
Qed.

(** X1.  The labels of a file are those of its parts: cutting the content
    at any newline and loading the two parts gives the same labels, in the
    same order, as loading the whole. *)
Theorem parse_cut_at_newline (a b : string) :
  parse (a ++ String "010"%char b) = (parse a ++ parse b)%list.
Proof.
  rewrite !parse_eq. rewrite Split_nl_app.
  apply flat_map_app.
Qed.

(** X2.  No label is empty, and a file of [n] newlines gives at most
    [n + 1] labels. *)
Theorem parse_labels_nonempty (content : string) :
  Forall (fun l => l <> "") (parse content) /\
  length (parse content) <= S (count_nl content).
Proof.
  rewrite parse_eq, <- length_Split_nl.
  induction (Split_nl content) as [|l ls [IH1 IH2]]; cbn.
  - split; [constructor|lia].
  - split; [apply Forall_app; split; [apply keep_nonempty|exact IH1]|].
    rewrite length_app. pose proof (length_keep l). lia.
Qed.

Lemma parse_file_text (ls : list Line) :
  forallb line_ok ls = true ->
  parse (file_text ls) = flat_map line_labels ls.
Proof.
  unfold file_text. induction ls as [|l ls IH]; [reflexivity|].
  cbn [forallb]. intros H. apply andb_prop in H as [Hl Hls].
  destruct ls as [|l' ls'].
  - change (String.concat (String "010"%char "") (map line_text [l]))
      with (line_text l).
    rewrite parse_eq, Split_nl_one by now apply no_nl_line.
    cbn [flat_map]. rewrite !app_nil_r. now apply TrimSpace_line.
  - change (String.concat (String "010"%char "")
              (map line_text (l :: l' :: ls')))
      with (line_text l
            ++ String "010"%char
                 (String.concat (String "010"%char "")
                    (map line_text (l' :: ls')))).
    rewrite parse_cut_at_newline, (IH Hls).
    rewrite parse_eq, Split_nl_one by now apply no_nl_line.
    cbn [flat_map]. rewrite app_nil_r. f_equal. now apply TrimSpace_line.
Qed.

(** X3.  A vocabulary file read back: when the file holds lines that are
    blank or carry one label each, with blanks, tabs or a carriage return
    around it, [loadLabels] returns exactly the labels, in line order; blank
    lines and a newline at the end of the file add nothing, so a label's
    class index is its rank among the lines that are not blank. *)
Theorem loadLabels_reads_back (ReadFile : string -> string + error)
  (filename : string) (ls : list Line) :
  ReadFile filename = inl (file_text ls) ->
  forallb line_ok ls = true ->
  loadLabels TrimFunc_IsSpace TrimRightFunc_IsSpace ReadFile filename
  = inl (flat_map line_labels ls).
Proof.
  intros Hf Hls. unfold loadLabels. rewrite Hf.
  now rewrite parse_file_text.
Qed.

End Trim.

Lemma loadLabels_reads_back_witness :
  loadLabels id id sample_fs "labels.txt"
  = inl ["tabby cat"; "golden retriever"; "goldfish"].
Proof.
  apply (loadLabels_reads_back id id sample_fs "labels.txt" sample_lines);
    reflexivity.
Defined.

End LabelsFacts.

(** ** More about [getTopK] *)
Module TopKMore.
Import Go Float32 Float32Facts TopK TopKFacts.
Local Open Scope nat_scope.

(** **** Entries whose confidence is a NaN *)
Lemma swap_step_nan_fixed (i j p : nat) (l : list pred) (x : pred) :
  l !! p = Some x -> is_nan (value x) = true ->
  swap_step i j l !! p = Some x.
Proof.
  intros Ex Hx. unfold swap_step.
  destruct (l !! j) as [pj|] eqn:Ej; [|assumption].
  destruct (l !! i) as [pi|] eqn:Ei; [|assumption].
  destruct (gtb (value pj) (value pi)) eqn:G; [|assumption].
  destruct (gtb_not_nan _ _ G) as [Hj Hi].
  assert (p <> i) by (intros ->; congruence).
  assert (p <> j) by (intros ->; congruence).
  now rewrite !list_lookup_insert_ne by congruence.
Qed.

Lemma inner_nan_fixed (n i j p : nat) (l : list pred) (x : pred) :
  l !! p = Some x -> is_nan (value x) = true ->
  inner n i j l !! p = Some x.
Proof.
  revert j l. induction n as [|n IH]; intros j l Ex Hx; cbn; [assumption|].
  apply IH; [|assumption]. now apply swap_step_nan_fixed.
Qed.

Lemma outer_nan_fixed (n i p : nat) (l : list pred) (x : pred) :
  l !! p = Some x -> is_nan (value x) = true ->
  outer n i l !! p = Some x.
Proof.
  revert i l. induction n as [|n IH]; intros i l Ex Hx; cbn; [assumption|].
  apply IH; [|assumption]. now apply inner_nan_fixed.
Qed.

(** X4.  A NaN confidence is never moved by the sort: the class that holds it
    is reported at the rank of its own index, whenever that rank is within
    the first [k]. *)
Theorem nan_keeps_its_rank (ps : list float32) (ls : list string) (k0 : Z)
  (i : nat) (v : float32) :
  ps !! i = Some v -> is_nan v = true -> (Z.of_nat i < k0)%Z ->
  exists rs, getTopK ps ls k0 = Returned rs /\
             rs !! i = Some (mkResult (label_of ls i) v).
Proof.
  intros Ev Hv Hk. eexists. split; [apply getTopK_eq|].
  assert (Hi : i < length ps) by (eapply lookup_lt_Some; eassumption).
  rewrite list_lookup_fmap, lookup_take_lt by (rewrite clamped_min; lia).
  unfold rank.
  rewrite (outer_nan_fixed _ _ i _ (mkPred i v)); [reflexivity| |assumption].
  unfold indexed. now rewrite list_lookup_imap, Ev.
Qed.

Lemma nan_keeps_its_rank_witness :
  exists rs,
    getTopK [S754_nan; f32_ratio 9 10] abc 5 = Returned rs /\
    rs !! 0 = Some (mkResult (label_of abc 0) S754_nan).
Proof.
  apply (nan_keeps_its_rank [S754_nan; f32_ratio 9 10] abc 5 0 S754_nan);
    [reflexivity|reflexivity|lia].
Defined.

(** **** How the result depends on [k] *)
(** X5.  A smaller [k] gives a prefix of what a larger [k] gives: [k] only cuts
    the ranking, it never changes it. *)
Theorem smaller_k_gives_prefix (ps : list float32) (ls : list string)
  (k1 k2 : Z) :
  (k1 <= k2)%Z ->
  exists rs2, getTopK ps ls k2 = Returned rs2 /\
              getTopK ps ls k1 = Returned (take (Z.to_nat k1) rs2).
Proof.
  intros Hk. eexists. split; [apply getTopK_eq|].
  rewrite getTopK_eq. f_equal.
  change (map (to_result ls) ?l) with (to_result ls <$> l).
  rewrite <- fmap_take, take_take, !clamped_min.
  do 2 f_equal. lia.
Qed.

Lemma smaller_k_gives_prefix_witness :
  exists rs2, getTopK tie_vector abc 3 = Returned rs2 /\
              getTopK tie_vector abc 1 = Returned (take (Z.to_nat 1) rs2).
Proof. apply (smaller_k_gives_prefix tie_vector abc 1 3). lia. Defined.

(** **** The selected class indices *)

(** X6.  Whatever the confidences, NaN included, no class is reported twice and
    every reported class index is one of the input's; with [k] at least the
    length of the input every class is reported exactly once. *)
Theorem selected_indices_distinct (ps : list float32) (ls : list string)
  (k0 : Z) :
  exists sel,
    selected_indices ps ls k0 = Returned sel /\
    NoDup sel /\
    Forall (fun idx => idx < length ps) sel /\
    ((Z.of_nat (length ps) <= k0)%Z -> sel ≡ₚ seq 0 (length ps)).
Proof.
  eexists. split; [apply selected_indices_eq|].
  assert (Hp : map index (rank (indexed ps)) ≡ₚ seq 0 (length ps)).
  { rewrite <- map_index_indexed. apply fmap_Permutation, rank_perm. }
  change (map index (take ?n ?l)) with (index <$> take n l).
  rewrite fmap_take. repeat split.
  - eapply sublist_NoDup; [|apply sublist_take].
    change (index <$> ?l) with (map index l). rewrite Hp. apply NoDup_seq.
  - apply Forall_take. change (index <$> ?l) with (map index l).
    rewrite Hp. apply Forall_seq. intros j Hj. lia.
  - intros Hk. rewrite take_ge; [exact Hp|].
    rewrite length_fmap, length_rank, length_indexed, clamped_min. lia.
Qed.

(** **** Ranking what was already ranked *)
Lemma descending_sorted (l : list float32) :
  (forall p q x y, p < q -> l !! p = Some x -> l !! q = Some y ->
                   leb y x = true) ->
  sorted_desc l.
Proof.
  unfold sorted_desc. induction l as [|a l IH]; intros H; [constructor|].
  constructor.
  - apply IH. intros p q x y Hpq Ex Ey. apply (H (S p) (S q)); auto; lia.
  - destruct l as [|b l]; constructor.
    apply (H 0 1); auto; lia.
Qed.

(** X7.  Ranking is idempotent: for an input without NaN, the confidences of a
    full ranking, ranked again in full, come back in the same order. *)
Theorem ranking_twice_is_ranking_once (ps : list float32)
  (ls ls' : list string) :
  Forall (fun v => is_nan v = false) ps ->
  exists rs rs',
    getTopK ps ls (Z.of_nat (length ps)) = Returned rs /\
    getTopK (map Confidence rs) ls' (Z.of_nat (length rs)) = Returned rs' /\
    map Confidence rs' = map Confidence rs.
Proof.
  intros Hnan.
  assert (Hc : forall n, Z.to_nat (clamped (Z.of_nat n) n) = n).
  { intros n. rewrite clamped_min. lia. }
  set (vs := map value (rank (indexed ps))).
  assert (Hrs : map Confidence
                  (map (to_result ls)
                     (take (length ps) (rank (indexed ps)))) = vs).
  { rewrite take_ge by (rewrite length_rank, length_indexed; lia).
    unfold vs. rewrite map_map. reflexivity. }
  assert (Hs : sorted_desc vs).
  { apply descending_sorted. intros p q x y Hpq Ex Ey. unfold vs in Ex, Ey.
    change (map value ?l) with (value <$> l) in Ex, Ey.
    apply list_lookup_fmap_Some in Ex as (px & -> & Ex).
    apply list_lookup_fmap_Some in Ey as (py & -> & Ey).
    apply (rank_descending (indexed ps) p q px py);
      auto using no_nan_indexed. }
  do 2 eexists. split; [apply getTopK_eq|].
  rewrite Hc, Hrs. split; [apply getTopK_eq|].
  rewrite length_map, length_take, length_rank, length_indexed, Nat.min_id.
  assert (Hl : length vs = length ps).
  { unfold vs. now rewrite length_map, length_rank, length_indexed. }
  rewrite <- Hl, Hc.
  rewrite (rank_never_rises _ (sorted_desc_never_rises _ Hs)).
  rewrite take_ge by now rewrite length_indexed.
  rewrite map_to_result_indexed.
  apply list_eq. intros i.
  change (map Confidence ?l) with (Confidence <$> l).
  rewrite list_lookup_fmap, list_lookup_imap.
  now destruct (vs !! i).
Qed.

Lemma ranking_twice_is_ranking_once_witness :
  exists rs rs',
    getTopK tie_vector abc (Z.of_nat (length tie_vector)) = Returned rs /\
    getTopK (map Confidence rs) [] (Z.of_nat (length rs)) = Returned rs' /\
    map Confidence rs' = map Confidence rs.
Proof.
  apply (ranking_twice_is_ranking_once tie_vector abc []).
  repeat constructor.
Defined.

End TopKMore.

(** ** More about [preprocessImage] *)
Module PreprocessMore.
Import Go Float32 Float32Facts Preprocess PreprocessFacts.
Local Open Scope nat_scope.

(** **** Where a pixel lands in the batch *)

(** X8.  The batch is row-major with the channels innermost: for a resampled
    image of non-negative size, packing does not panic, and element
    [[0][y][x]] of the batch is the red, green and blue sample of the pixel
    at column [x] of row [y], each divided by 65535; the alpha sample is
    dropped. *)
Theorem batch_is_row_major (resized : Image) :
  (0 <= Dx (Bounds resized))%Z -> (0 <= Dy (Bounds resized))%Z ->
  exists batch,
    pack (Dy (Bounds resized)) (Dx (Bounds resized))
         (collect resized (Dx (Bounds resized)) (Dy (Bounds resized)))
    = Some batch /\
    length batch = 1 /\
    forall y x,
      (Z.of_nat y < Dy (Bounds resized))%Z ->
      (Z.of_nat x < Dx (Bounds resized))%Z ->
      let '(r, g, b, _) := At resized (Z.of_nat x) (Z.of_nat y) in
      exists img row,
        batch !! 0 = Some img /\ img !! y = Some row /\
        row !! x = Some [normalize r; normalize g; normalize b].
Proof.
  intros Hw Hh. exists (layout resized).
  split; [now apply pack_collect|]. split; [reflexivity|].
  intros y x Hy Hx.
  pose (w := Z.to_nat (Dx (Bounds resized))).
  assert (Hp : pixel resized y x
               = let '(r, g, b, _) := At resized (Z.of_nat x) (Z.of_nat y) in
                 [normalize r; normalize g; normalize b]) by reflexivity.
  destruct (At resized (Z.of_nat x) (Z.of_nat y)) as [[[r g] b] a].
  exists (map (row resized w) (seq 0 (Z.to_nat (Dy (Bounds resized))))),
         (row resized w y).
  split; [reflexivity|]. split.
  - change (map ?f ?l) with (f <$> l).
    rewrite list_lookup_fmap, lookup_seq_lt by lia. reflexivity.
  - unfold row. change (map ?f ?l) with (f <$> l).
    rewrite list_lookup_fmap, lookup_seq_lt by (unfold w; lia).
    cbn. now rewrite Hp.
Qed.

Lemma batch_is_row_major_witness :
  exists batch,
    pack 1 1 (collect one_pixel 1 1) = Some batch /\
    length batch = 1 /\
    forall y x,
      (Z.of_nat y < 1)%Z -> (Z.of_nat x < 1)%Z ->
      let '(r, g, b, _) := At one_pixel (Z.of_nat x) (Z.of_nat y) in
      exists img row,
        batch !! 0 = Some img /\ img !! y = Some row /\
        row !! x = Some [normalize r; normalize g; normalize b].
Proof. apply (batch_is_row_major one_pixel); discriminate. Defined.

(** **** Normalization keeps the order of the samples *)
Lemma gtb_trans (x y z : float32) :
  gtb y x = true -> gtb z y = true -> gtb z x = true.
Proof.
  intros Hxy Hyz.
  destruct (gtb_not_nan _ _ Hxy) as [Hy Hx].
  destruct (gtb_not_nan _ _ Hyz) as [Hz _].
  unfold gtb in *.
  rewrite SFltb_key in * by assumption. key_lia.
Qed.

Lemma normalize_steps_up :
  all_from (Z.to_nat 65535) 0
    (fun c => gtb (normalize (c + 1)) (normalize c)) = true.
Proof. vm_compute. reflexivity. Qed.

Lemma normalize_rises_by (d : nat) (c : Z) :
  (0 <= c)%Z -> (c + Z.of_nat (S d) <= 65535)%Z ->
  gtb (normalize (c + Z.of_nat (S d))) (normalize c) = true.
Proof.
  intros Hc. induction d as [|d IH]; intros Hd.
  - apply (all_from_spec
             (fun c => gtb (normalize (c + 1)) (normalize c)) _ 0%Z c
             normalize_steps_up). lia.
  - apply gtb_trans with (normalize (c + Z.of_nat (S d))); [apply IH; lia|].
    replace (c + Z.of_nat (S (S d)))%Z with (c + Z.of_nat (S d) + 1)%Z by lia.
    apply (all_from_spec
             (fun c => gtb (normalize (c + 1)) (normalize c)) _ 0%Z
             (c + Z.of_nat (S d))%Z normalize_steps_up). lia.
Qed.

(** X9.  Black is exactly 0, full scale is exactly 1, and a greater sample
    always gives a strictly greater value: no two of the 65536 sample
    values are normalized to the same number. *)
Theorem normalize_strictly_increasing (c c' : Z) :
  (0 <= c)%Z -> (c < c')%Z -> (c' <= 65535)%Z ->
  gtb (normalize c') (normalize c) = true /\
  normalize 0 = zero /\ normalize 65535 = one.
Proof.
  intros H0 Hlt H1. split; [|split; reflexivity].
  replace c' with (c + Z.of_nat (S (Z.to_nat (c' - c - 1))))%Z by lia.
  apply normalize_rises_by; lia.
Qed.

Lemma normalize_strictly_increasing_witness :
  gtb (normalize 32768) (normalize 32767) = true /\
  normalize 0 = zero /\ normalize 65535 = one.
Proof. apply (normalize_strictly_increasing 32767 32768); lia. Defined.

End PreprocessMore.

(** ** Proofs about [recognizeImage] and [recognizeHandler] *)
Module ServerFacts.
Import Stdlib.Strings.Ascii.
Import stdpp.gmap stdpp.strings.
Import Go Float32 TopK TopKFacts Decode DecodeFacts Preprocess Server.
Local Open Scope nat_scope.
Local Open Scope string_scope.

Section World.
Context {Tensor : Type}.
Implicit Types (wd : World Tensor) (t : Tensor).

(** **** [recognizeImage] *)

(** X10.  On an engine output whose first value is a non-empty [[][]float32],
    [recognizeImage] does not panic: it ranks the first row, and only that
    row, and returns exactly [min(5, n)] results for a row of [n]
    confidences. *)
Theorem recognizeImage_ranks_first_row wd t (p : list float32)
  (rows : list (list float32)) (more : list TensorValue) :
  session_Run wd t = inl (Float32Matrix (p :: rows) :: more) ->
  exists rs,
    recognizeImage wd t = Returned (inl rs) /\
    getTopK p (vocabulary wd) 5 = Returned rs /\
    length rs = Nat.min 5 (length p).
Proof.
  intros H. unfold recognizeImage. rewrite H, getTopK_eq.
  eexists. split; [reflexivity|]. split; [reflexivity|].
  rewrite length_map, length_take, length_rank, length_indexed.
  rewrite clamped_min. lia.
Qed.

(** X11.  [recognizeImage] has no error of its own and checks nothing of
    what the engine returns: it returns an error exactly when
    [session.Run] does, and it panics exactly when [session.Run] succeeds
    with no output, with a first output that is no [[][]float32], or with
    one that has no row. *)
Theorem recognizeImage_error_and_panic wd t :
  (forall e, recognizeImage wd t = Returned (inr e) <->
             session_Run wd t = inr e) /\
  (recognizeImage wd t = Panic <->
   exists output,
     session_Run wd t = inl output /\
     (output = [] \/
      exists more, output = OtherValue :: more \/
                   output = Float32Matrix [] :: more)).
Proof.
  unfold recognizeImage.
  destruct (session_Run wd t) as [[|[[|p rows]|] more]|e0] eqn:E;
    rewrite ?getTopK_eq.
  - split; [intros e; split; discriminate|].
    split; [intros _; eauto|reflexivity].
  - split; [intros e; split; discriminate|].
    split; [intros _; eauto 6|reflexivity].
  - split; [intros e; split; discriminate|].
    split; [discriminate|]. intros (o & [= <-] & [H|(m & [H|H])]);
      discriminate.
  - split; [intros e; split; discriminate|].
    split; [intros _; eauto 6|reflexivity].
  - split; [intros e; split; congruence|].
    split; [discriminate|]. intros (o & H & _). discriminate.
Qed.

(** **** [recognizeHandler] *)
Lemma http_Error_fresh (msg : string) (code : Z) :
  http_Error msg code fresh = error_reply msg code.
Proof. reflexivity. Qed.

(** X12.  A request whose method is not POST is answered 405 with one line of
    plain text, and nothing else is looked at: the reply is the same
    whatever the upload, the codecs, the libraries and the engine are. *)
Theorem handler_rejects_other_methods wd (r : Request) :
  Method r <> "POST" ->
  recognizeHandler wd fresh r
  = Returned (error_reply "Method not allowed, use POST" 405).
Proof.
  intros H. unfold recognizeHandler.
  apply String.eqb_neq in H. rewrite H. reflexivity.
Qed.

(** X13.  An upload that neither codec accepts is answered 400 with the
    unsupported-format message; the resampler, the tensor library and the
    engine are not consulted. *)
Theorem handler_rejects_undecodable_upload wd (bytes : list Byte.byte) :
  fst (jpeg wd bytes) = None -> fst (png wd bytes) = None ->
  recognizeHandler wd fresh (mkRequest "POST" (inl (upload bytes)))
  = Returned
      (error_reply ("Error decoding image: " ++ unsupported) 400).
Proof.
  intros Hj Hp. unfold recognizeHandler. cbn [Method FormFile_image].
  change (negb ("POST" =? "POST")) with false. cbn match.
  rewrite readImage_by_views, png_view_full.
  unfold jpeg_view, remaining, upload. cbn [pos data]. rewrite drop_0.
  rewrite Hj, Hp. reflexivity.
Qed.

(** X14.  When the tensor library refuses the probe value of line 80, every
    upload that decodes is answered 500 with the library's message,
    whatever the image holds. *)
Theorem handler_probe_refused wd (file : Reader) (img : Image) (e : error) :
  fst (readImage (jpeg wd) (png wd) file) = inl img ->
  tf_NewTensor (libs wd) (IntArray [1%Z]) = inr e ->
  recognizeHandler wd fresh (mkRequest "POST" (inl file))
  = Returned (error_reply ("Error preprocessing image: " ++ e) 500).
Proof.
  intros Hd Hprobe. unfold recognizeHandler. cbn [Method FormFile_image].
  change (negb ("POST" =? "POST")) with false. cbn match.
  rewrite Hd. unfold preprocessImage. cbn [run]. rewrite Hprobe.
  reflexivity.
Qed.

(** X15.  The successful path: for an upload that decodes (JPEG first), whose
    tensor is built and for which the engine answers with a non-empty
    [[][]float32], the reply carries the JSON content type and the encoding
    of the top 5 of the first row, [min(5, n)] results. *)
Theorem handler_replies_top5 wd (bytes : list Byte.byte) (img : Image) t
  (p : list float32) (rows : list (list float32)) (more : list TensorValue) :
  decode_spec (jpeg wd) (png wd) bytes = inl img ->
  run (libs wd) (preprocessImage img) = Returned (inl t) ->
  session_Run wd t = inl (Float32Matrix (p :: rows) :: more) ->
  exists rs,
    getTopK p (vocabulary wd) 5 = Returned rs /\
    length rs = Nat.min 5 (length p) /\
    recognizeHandler wd fresh (mkRequest "POST" (inl (upload bytes)))
    = Returned
        (Encode wd rs (Header_Set "Content-Type" "application/json" fresh)).
Proof.
  intros Hd Hr Hs.
  destruct (recognizeImage_ranks_first_row wd t p rows more Hs)
    as (rs & Hrec & Hrs & Hlen).
  exists rs. split; [exact Hrs|]. split; [exact Hlen|].
  unfold recognizeHandler. cbn [Method FormFile_image].
  change (negb ("POST" =? "POST")) with false. cbn match.
  rewrite readImage_by_views, png_view_full.
  unfold jpeg_view, remaining, upload. cbn [pos data]. rewrite drop_0.
  unfold decode_spec, first_success in Hd.
  destruct (fst (jpeg wd bytes)) as [i|].
  - injection Hd as ->. now rewrite Hr, Hrec.
  - destruct (fst (png wd bytes)) as [i|]; [|discriminate].
    injection Hd as ->. now rewrite Hr, Hrec.
Qed.

(** X16.  Every reply the handler completes is of one of two kinds: one line of
    plain text with status 405, 400 or 500 (405 exactly for a method other
    than POST), or the JSON content type with status 200 and the encoding
    of at most five results; a result list that cannot be encoded leaves
    the body empty under that same status. *)
Theorem handler_reply_kinds wd (r : Request) (w : ResponseWriter) :
  recognizeHandler wd fresh r = Returned w ->
  (exists msg code,
     w = error_reply msg code /\
     (code = 405 \/ code = 400 \/ code = 500)%Z /\
     (code = 405%Z <-> Method r <> "POST")) \/
  (exists rs,
     Method r = "POST" /\
     length rs <= 5 /\
     Header w = <["Content-Type":="application/json"]> ∅ /\
     seen_status w = 200%Z /\
     body w = match json wd rs with
              | inl text => text ++ newline
              | inr _ => ""
              end).
Proof.
  unfold recognizeHandler.
  destruct (String.eqb_spec (Method r) "POST") as [Hm|Hm]; cbn [negb].
  2:{ intros [= <-]. left. do 2 eexists. split; [reflexivity|].
      split; [lia|]. split; [auto|reflexivity]. }
  assert (Hcode : forall c : Z,
             c <> 405%Z -> c = 405%Z <-> Method r <> "POST").
  { intros c Hc. split; [intros ->; contradiction|intros H; contradiction]. }
  destruct (FormFile_image r) as [file|e].
  2:{ intros [= <-]. left. do 2 eexists. split; [reflexivity|].
      split; [lia|]. now apply Hcode. }
  destruct (fst (readImage (jpeg wd) (png wd) file)) as [img|e].
  2:{ intros [= <-]. left. do 2 eexists. split; [reflexivity|].
      split; [lia|]. now apply Hcode. }
  destruct (run (libs wd) (preprocessImage img)) as [[t|e]|];
    [| |discriminate].
  2:{ intros [= <-]. left. do 2 eexists. split; [reflexivity|].
      split; [lia|]. now apply Hcode. }
  destruct (recognizeImage wd t) as [[rs|e]|] eqn:Hrec; [| |discriminate].
  2:{ intros [= <-]. left. do 2 eexists. split; [reflexivity|].
      split; [lia|]. now apply Hcode. }
  intros [= <-]. right. exists rs. split; [exact Hm|]. split.
  - unfold recognizeImage in Hrec.
    destruct (session_Run wd t) as [[|[[|p rows]|] more]|e0];
      try discriminate.
    rewrite getTopK_eq in Hrec. injection Hrec as <-.
    rewrite length_map, length_take, length_rank, length_indexed.
    rewrite clamped_min. lia.
  - unfold Encode. destruct (json wd rs) as [text|e]; repeat split.
Qed.

End World.

Lemma recognizeImage_ranks_first_row_witness :
  exists rs,
    recognizeImage toy_world (IntArray []) = Returned (inl rs) /\
    getTopK tie_vector abc 5 = Returned rs /\
    length rs = Nat.min 5 (length tie_vector).
Proof.
  apply (recognizeImage_ranks_first_row toy_world (IntArray []) tie_vector
           [] []).
  reflexivity.
Defined.

Lemma handler_rejects_other_methods_witness :
  recognizeHandler toy_world fresh (mkRequest "GET" (inl (upload png_bytes)))
  = Returned (error_reply "Method not allowed, use POST" 405).
Proof.
  apply (handler_rejects_other_methods toy_world
           (mkRequest "GET" (inl (upload png_bytes)))).
  discriminate.
Defined.

Lemma handler_rejects_undecodable_upload_witness :
  recognizeHandler toy_world fresh
    (mkRequest "POST" (inl (upload [Byte.x00; Byte.x01])))
  = Returned
      (error_reply ("Error decoding image: " ++ unsupported) 400).
Proof.
  apply (handler_rejects_undecodable_upload toy_world [Byte.x00; Byte.x01]);
    reflexivity.
Defined.

Lemma handler_probe_refused_witness :
  recognizeHandler refusing_world fresh
    (mkRequest "POST" (inl (upload png_bytes)))
  = Returned
      (error_reply ("Error preprocessing image: " ++ "unsupported type") 500).
Proof.
  apply (handler_probe_refused refusing_world (upload png_bytes) (blank 1 1)
           "unsupported type"); reflexivity.
Defined.

Lemma handler_replies_top5_witness :
  exists rs,
    getTopK tie_vector abc 5 = Returned rs /\
    length rs = Nat.min 5 (length tie_vector) /\
    recognizeHandler toy_world fresh
      (mkRequest "POST" (inl (upload png_bytes)))
    = Returned
        (Encode toy_world rs
           (Header_Set "Content-Type" "application/json" fresh)).
Proof.
  apply (handler_replies_top5 toy_world png_bytes (blank 1 1)
           (Float32Slice4 (layout (blank 1 1))) tie_vector [] []);
    reflexivity.
Defined.

Lemma handler_reply_kinds_witness :
  (exists msg code,
     error_reply "Method not allowed, use POST" 405 = error_reply msg code /\
     (code = 405 \/ code = 400 \/ code = 500)%Z /\
     (code = 405%Z <-> "GET" <> "POST")) \/
  (exists rs,
     "GET" = "POST" /\
     length rs <= 5 /\
     Header (error_reply "Method not allowed, use POST" 405)
     = <["Content-Type":="application/json"]> ∅ /\
     seen_status (error_reply "Method not allowed, use POST" 405) = 200%Z /\
     body (error_reply "Method not allowed, use POST" 405)
     = match json toy_world rs with
       | inl text => text ++ newline
       | inr _ => ""
       end).
Proof.
  apply (handler_reply_kinds toy_world
           (mkRequest "GET" (inl (upload png_bytes)))
           (error_reply "Method not allowed, use POST" 405)).
  reflexivity.
Defined.

End ServerFacts.

(** ** More about [readImage] *)
Module DecodeMore.
Import Go Decode DecodeFacts.
Local Open Scope nat_scope.

(** X17.  JPEG has priority and the only error is the unsupported-format
    error: when the JPEG codec accepts what the reader holds, its image is
    returned whatever the PNG codec would say; and [readImage] returns an
    error exactly when the JPEG attempt fails on what the reader held at
    entry and the PNG attempt fails on what it holds after lines 53-56, the
    error then being the one that names JPEG and PNG. *)
Theorem readImage_outcomes (jpeg_Decode png_Decode : Decoder) (r : Reader) :
  (forall img, fst (jpeg_Decode (jpeg_view r)) = Some img ->
               fst (readImage jpeg_Decode png_Decode r) = inl img) /\
  (forall e, fst (readImage jpeg_Decode png_Decode r) = inr e <->
             e = unsupported /\
             fst (jpeg_Decode (jpeg_view r)) = None /\
             fst (png_Decode (png_view jpeg_Decode r)) = None).
Proof.
  rewrite readImage_by_views. split.
  - intros img ->. reflexivity.
  - intros e. destruct (fst (jpeg_Decode (jpeg_view r))) as [i|].
    + split; [discriminate|]. intros (_ & H & _). discriminate.
    + destruct (fst (png_Decode (png_view jpeg_Decode r))) as [i|].
      * split; [discriminate|]. intros (_ & _ & H). discriminate.
      * split; [intros [= <-]; auto|]. intros (-> & _). reflexivity.
Qed.

End DecodeMore.
